(** * Verification of [internal/crypto]: AES-256 wrapper and PBKDF2 key derivation

    This development embeds the Go package [internal/crypto] of the
    repository (files [aes.go] and [pbkdf2.go]) together with the parts of
    the Go standard library it calls: [crypto/aes] (FIPS-197), [crypto/sha256]
    (FIPS 180-4), [crypto/hmac] (RFC 2104), [crypto/pbkdf2] (RFC 8018) and
    [crypto/rand].

    Conventions.
    - A Go [byte] is a [Z] in the range [0, 256); a [[]byte] is a [list Z].
      The [nil] slice and the empty slice are both [[]].
    - A Go [uint32] is a [Z] in the range [0, 2^32); the wrap-around of an
      addition is written out with [Z.land _ 0xffffffff].
    - A Go function returning [([]byte, error)] returns a pair
      [(list Z * option error)]; a run-time panic is the [Panicked] outcome.
    - [crypto/rand] reads the operating system's entropy source, which is
      threaded explicitly as a [World]. *)

From Stdlib Require Import String Ascii ZArith List Bool Lia Btauto.
Import ListNotations.
Local Open Scope Z_scope.

Set Implicit Arguments.

(** ** Go values *)

Definition bytes := list Z.

Definition is_byte (x : Z) : Prop := 0 <= x < 256.

Definition is_bytes (b : bytes) : Prop := Forall is_byte b.

(** [len(b)] *)
Definition len (b : bytes) : Z := Z.of_nat (length b).

(** [make([]byte, n)]: [n] zero bytes. *)
Definition make (n : Z) : bytes := repeat 0 (Z.to_nat n).

(** [[]byte(s)] for a string [s]. *)
Fixpoint bytes_of_string (s : string) : bytes :=
  match s with
  | EmptyString => []
  | String c s' => Z.of_N (N_of_ascii c) :: bytes_of_string s'
  end.

(** The bytes written by a lower-case hexadecimal string. *)
Definition hexval (c : ascii) : Z :=
  let n := Z.of_N (N_of_ascii c) in
  if n <? 58 then n - 48 else n - 87.

Fixpoint unhex (s : string) : bytes :=
  match s with
  | String a (String b s') => (16 * hexval a + hexval b) :: unhex s'
  | _ => []
  end.

(** The error values the package can return. *)
Inductive error : Type :=
| KeySizeError (k : Z)          (* crypto/aes: invalid key size k *)
| ErrKeyLength (msg : string)   (* crypto/pbkdf2: errors.New(msg) *)
| ErrEntropy.                   (* crypto/rand: the OS read failed *)

(** The outcome of a call: it returns, or the goroutine panics. *)
Inductive outcome (A : Type) : Type :=
| Returned (a : A)
| Panicked (msg : string).
Arguments Panicked {A} msg.

(** ** crypto/aes *)

Module aes.

Definition BlockSize : Z := 16.

(** FIPS-197 Figure 7: the S-box. *)
Definition sbox0 : list Z :=
  [
   0x63; 0x7c; 0x77; 0x7b; 0xf2; 0x6b; 0x6f; 0xc5; 0x30; 0x01; 0x67; 0x2b; 0xfe; 0xd7; 0xab; 0x76;
   0xca; 0x82; 0xc9; 0x7d; 0xfa; 0x59; 0x47; 0xf0; 0xad; 0xd4; 0xa2; 0xaf; 0x9c; 0xa4; 0x72; 0xc0;
   0xb7; 0xfd; 0x93; 0x26; 0x36; 0x3f; 0xf7; 0xcc; 0x34; 0xa5; 0xe5; 0xf1; 0x71; 0xd8; 0x31; 0x15;
   0x04; 0xc7; 0x23; 0xc3; 0x18; 0x96; 0x05; 0x9a; 0x07; 0x12; 0x80; 0xe2; 0xeb; 0x27; 0xb2; 0x75;
   0x09; 0x83; 0x2c; 0x1a; 0x1b; 0x6e; 0x5a; 0xa0; 0x52; 0x3b; 0xd6; 0xb3; 0x29; 0xe3; 0x2f; 0x84;
   0x53; 0xd1; 0x00; 0xed; 0x20; 0xfc; 0xb1; 0x5b; 0x6a; 0xcb; 0xbe; 0x39; 0x4a; 0x4c; 0x58; 0xcf;
   0xd0; 0xef; 0xaa; 0xfb; 0x43; 0x4d; 0x33; 0x85; 0x45; 0xf9; 0x02; 0x7f; 0x50; 0x3c; 0x9f; 0xa8;
   0x51; 0xa3; 0x40; 0x8f; 0x92; 0x9d; 0x38; 0xf5; 0xbc; 0xb6; 0xda; 0x21; 0x10; 0xff; 0xf3; 0xd2;
   0xcd; 0x0c; 0x13; 0xec; 0x5f; 0x97; 0x44; 0x17; 0xc4; 0xa7; 0x7e; 0x3d; 0x64; 0x5d; 0x19; 0x73;
   0x60; 0x81; 0x4f; 0xdc; 0x22; 0x2a; 0x90; 0x88; 0x46; 0xee; 0xb8; 0x14; 0xde; 0x5e; 0x0b; 0xdb;
   0xe0; 0x32; 0x3a; 0x0a; 0x49; 0x06; 0x24; 0x5c; 0xc2; 0xd3; 0xac; 0x62; 0x91; 0x95; 0xe4; 0x79;
   0xe7; 0xc8; 0x37; 0x6d; 0x8d; 0xd5; 0x4e; 0xa9; 0x6c; 0x56; 0xf4; 0xea; 0x65; 0x7a; 0xae; 0x08;
   0xba; 0x78; 0x25; 0x2e; 0x1c; 0xa6; 0xb4; 0xc6; 0xe8; 0xdd; 0x74; 0x1f; 0x4b; 0xbd; 0x8b; 0x8a;
   0x70; 0x3e; 0xb5; 0x66; 0x48; 0x03; 0xf6; 0x0e; 0x61; 0x35; 0x57; 0xb9; 0x86; 0xc1; 0x1d; 0x9e;
   0xe1; 0xf8; 0x98; 0x11; 0x69; 0xd9; 0x8e; 0x94; 0x9b; 0x1e; 0x87; 0xe9; 0xce; 0x55; 0x28; 0xdf;
   0x8c; 0xa1; 0x89; 0x0d; 0xbf; 0xe6; 0x42; 0x68; 0x41; 0x99; 0x2d; 0x0f; 0xb0; 0x54; 0xbb; 0x16
  ].

(** FIPS-197 Figure 14: the inverse S-box. *)
Definition sbox1 : list Z :=
  [
   0x52; 0x09; 0x6a; 0xd5; 0x30; 0x36; 0xa5; 0x38; 0xbf; 0x40; 0xa3; 0x9e; 0x81; 0xf3; 0xd7; 0xfb;
   0x7c; 0xe3; 0x39; 0x82; 0x9b; 0x2f; 0xff; 0x87; 0x34; 0x8e; 0x43; 0x44; 0xc4; 0xde; 0xe9; 0xcb;
   0x54; 0x7b; 0x94; 0x32; 0xa6; 0xc2; 0x23; 0x3d; 0xee; 0x4c; 0x95; 0x0b; 0x42; 0xfa; 0xc3; 0x4e;
   0x08; 0x2e; 0xa1; 0x66; 0x28; 0xd9; 0x24; 0xb2; 0x76; 0x5b; 0xa2; 0x49; 0x6d; 0x8b; 0xd1; 0x25;
   0x72; 0xf8; 0xf6; 0x64; 0x86; 0x68; 0x98; 0x16; 0xd4; 0xa4; 0x5c; 0xcc; 0x5d; 0x65; 0xb6; 0x92;
   0x6c; 0x70; 0x48; 0x50; 0xfd; 0xed; 0xb9; 0xda; 0x5e; 0x15; 0x46; 0x57; 0xa7; 0x8d; 0x9d; 0x84;
   0x90; 0xd8; 0xab; 0x00; 0x8c; 0xbc; 0xd3; 0x0a; 0xf7; 0xe4; 0x58; 0x05; 0xb8; 0xb3; 0x45; 0x06;
   0xd0; 0x2c; 0x1e; 0x8f; 0xca; 0x3f; 0x0f; 0x02; 0xc1; 0xaf; 0xbd; 0x03; 0x01; 0x13; 0x8a; 0x6b;
   0x3a; 0x91; 0x11; 0x41; 0x4f; 0x67; 0xdc; 0xea; 0x97; 0xf2; 0xcf; 0xce; 0xf0; 0xb4; 0xe6; 0x73;
   0x96; 0xac; 0x74; 0x22; 0xe7; 0xad; 0x35; 0x85; 0xe2; 0xf9; 0x37; 0xe8; 0x1c; 0x75; 0xdf; 0x6e;
   0x47; 0xf1; 0x1a; 0x71; 0x1d; 0x29; 0xc5; 0x89; 0x6f; 0xb7; 0x62; 0x0e; 0xaa; 0x18; 0xbe; 0x1b;
   0xfc; 0x56; 0x3e; 0x4b; 0xc6; 0xd2; 0x79; 0x20; 0x9a; 0xdb; 0xc0; 0xfe; 0x78; 0xcd; 0x5a; 0xf4;
   0x1f; 0xdd; 0xa8; 0x33; 0x88; 0x07; 0xc7; 0x31; 0xb1; 0x12; 0x10; 0x59; 0x27; 0x80; 0xec; 0x5f;
   0x60; 0x51; 0x7f; 0xa9; 0x19; 0xb5; 0x4a; 0x0d; 0x2d; 0xe5; 0x7a; 0x9f; 0x93; 0xc9; 0x9c; 0xef;
   0xa0; 0xe0; 0x3b; 0x4d; 0xae; 0x2a; 0xf5; 0xb0; 0xc8; 0xeb; 0xbb; 0x3c; 0x83; 0x53; 0x99; 0x61;
   0x17; 0x2b; 0x04; 0x7e; 0xba; 0x77; 0xd6; 0x26; 0xe1; 0x69; 0x14; 0x63; 0x55; 0x21; 0x0c; 0x7d
  ].

(** Powers of x in GF(2^8), the round constants of the key schedule. *)
Definition powx : list Z :=
  [0x01; 0x02; 0x04; 0x08; 0x10; 0x20; 0x40; 0x80;
   0x1b; 0x36; 0x6c; 0xd8; 0xab; 0x4d; 0x9a; 0x2f].

Definition sub (x : Z) : Z := nth (Z.to_nat x) sbox0 0.
Definition isub (x : Z) : Z := nth (Z.to_nat x) sbox1 0.

(** Multiplication by x in GF(2^8) modulo x^8 + x^4 + x^3 + x + 1. *)
Definition xtime (x : Z) : Z :=
  Z.lxor (Z.land (Z.shiftl x 1) 0xff) (if Z.testbit x 7 then 0x1b else 0).

Definition mul2 (x : Z) : Z := xtime x.
Definition mul3 (x : Z) : Z := Z.lxor (xtime x) x.
Definition mul9 (x : Z) : Z := Z.lxor (xtime (xtime (xtime x))) x.
Definition mul11 (x : Z) : Z :=
  Z.lxor (Z.lxor (xtime (xtime (xtime x))) (xtime x)) x.
Definition mul13 (x : Z) : Z :=
  Z.lxor (Z.lxor (xtime (xtime (xtime x))) (xtime (xtime x))) x.
Definition mul14 (x : Z) : Z :=
  Z.lxor (Z.lxor (xtime (xtime (xtime x))) (xtime (xtime x))) (xtime x).

Definition xor4 (a b c d : Z) : Z := Z.lxor (Z.lxor (Z.lxor a b) c) d.

(** *** The four transformations of the state (16 bytes, column by column) *)

Definition SubBytes (s : bytes) : bytes := map sub s.
Definition InvSubBytes (s : bytes) : bytes := map isub s.

Definition permute (p : list nat) (s : bytes) : bytes :=
  map (fun i => nth i s 0) p.

Definition ShiftRows : bytes -> bytes :=
  permute [0; 5; 10; 15; 4; 9; 14; 3; 8; 13; 2; 7; 12; 1; 6; 11]%nat.
Definition InvShiftRows : bytes -> bytes :=
  permute [0; 13; 10; 7; 4; 1; 14; 11; 8; 5; 2; 15; 12; 9; 6; 3]%nat.

Definition mixColumn (a b c d : Z) : bytes :=
  [ xor4 (mul2 a) (mul3 b) c d;
    xor4 a (mul2 b) (mul3 c) d;
    xor4 a b (mul2 c) (mul3 d);
    xor4 (mul3 a) b c (mul2 d) ].

Definition invMixColumn (a b c d : Z) : bytes :=
  [ xor4 (mul14 a) (mul11 b) (mul13 c) (mul9 d);
    xor4 (mul9 a) (mul14 b) (mul11 c) (mul13 d);
    xor4 (mul13 a) (mul9 b) (mul14 c) (mul11 d);
    xor4 (mul11 a) (mul13 b) (mul9 c) (mul14 d) ].

Fixpoint MixColumns (s : bytes) : bytes :=
  match s with
  | a :: b :: c :: d :: s' => mixColumn a b c d ++ MixColumns s'
  | _ => []
  end.

Fixpoint InvMixColumns (s : bytes) : bytes :=
  match s with
  | a :: b :: c :: d :: s' => invMixColumn a b c d ++ InvMixColumns s'
  | _ => []
  end.

Fixpoint xorBytes (x y : bytes) : bytes :=
  match x, y with
  | a :: x', b :: y' => Z.lxor a b :: xorBytes x' y'
  | _, _ => []
  end.

Definition AddRoundKey (s rk : bytes) : bytes := xorBytes s rk.

(** *** Key schedule, on 32-bit big-endian words as in [expandKeyGeneric] *)

Definition BEUint32 (b : bytes) : Z :=
  Z.lor (Z.lor (Z.lor (Z.shiftl (nth 0 b 0) 24) (Z.shiftl (nth 1 b 0) 16))
               (Z.shiftl (nth 2 b 0) 8))
        (nth 3 b 0).

Definition BEPutUint32 (w : Z) : bytes :=
  [ Z.land (Z.shiftr w 24) 0xff; Z.land (Z.shiftr w 16) 0xff;
    Z.land (Z.shiftr w 8) 0xff; Z.land w 0xff ].

Definition subw (w : Z) : Z := BEUint32 (map sub (BEPutUint32 w)).

Definition rotw (w : Z) : Z :=
  Z.lor (Z.land (Z.shiftl w 8) 0xffffffff) (Z.shiftr w 24).

(** The cipher object returned by [NewCipher]. *)
Record Block : Type := mkBlock {
  rounds : Z;
  enc : list Z
}.

Definition roundKeysSize (rounds : Z) : Z := (rounds + 1) * 4.

Fixpoint keyWords (n : nat) (key : bytes) : list Z :=
  match n with
  | O => []
  | S n' => BEUint32 key :: keyWords n' (skipn 4 key)
  end.

Fixpoint expandLoop (fuel : nat) (nk i : Z) (w : list Z) : list Z :=
  match fuel with
  | O => w
  | S fuel' =>
      let t := nth (Z.to_nat (i - 1)) w 0 in
      let t :=
        if i mod nk =? 0 then
          Z.lxor (subw (rotw t))
                 (Z.shiftl (nth (Z.to_nat (i / nk - 1)) powx 0) 24)
        else if (6 <? nk) && (i mod nk =? 4) then subw t
        else t in
      expandLoop fuel' nk (i + 1)
                 (w ++ [Z.lxor (nth (Z.to_nat (i - nk)) w 0) t])
  end.

Definition expandKey (key : bytes) : Block :=
  let nk := len key / 4 in
  let rounds := nk + 6 in
  {| rounds := rounds;
     enc := expandLoop (Z.to_nat (roundKeysSize rounds - nk)) nk nk
                       (keyWords (Z.to_nat nk) key) |}.

(** [NewCipher]: only 16, 24 and 32 byte keys are accepted. *)
Definition NewCipher (key : bytes) : Block + error :=
  let k := len key in
  if (k =? 16) || (k =? 24) || (k =? 32) then inl (expandKey key)
  else inr (KeySizeError k).

(** Round key [r]: words [4r .. 4r+3] of the schedule, as 16 bytes. *)
Definition roundKey (c : Block) (r : nat) : bytes :=
  flat_map BEPutUint32 (firstn 4 (skipn (4 * r) (enc c))).

(** Round keys 1 .. rounds-1. *)
Definition middleKeys (c : Block) : list bytes :=
  map (roundKey c) (seq 1 (Z.to_nat (rounds c) - 1)).

Definition lastKey (c : Block) : bytes := roundKey c (Z.to_nat (rounds c)).

(** *** Cipher and inverse cipher on one block (FIPS-197 section 5) *)

Definition encRound (s rk : bytes) : bytes :=
  AddRoundKey (MixColumns (ShiftRows (SubBytes s))) rk.

Definition encFinal (s rk : bytes) : bytes :=
  AddRoundKey (ShiftRows (SubBytes s)) rk.

Definition decRound (rk s : bytes) : bytes :=
  InvSubBytes (InvShiftRows (InvMixColumns (AddRoundKey s rk))).

Definition decFinal (rk s : bytes) : bytes :=
  InvSubBytes (InvShiftRows (AddRoundKey s rk)).

Definition encryptBlock (c : Block) (src : bytes) : bytes :=
  encFinal (fold_left encRound (middleKeys c) (AddRoundKey src (roundKey c 0)))
           (lastKey c).

Definition decryptBlock (c : Block) (src : bytes) : bytes :=
  AddRoundKey (fold_right decRound (decFinal (lastKey c) src) (middleKeys c))
              (roundKey c 0).

(** [Block.Encrypt(dst, src)]: one block of [src] is enciphered into the
    first [BlockSize] bytes of [dst]; the rest of [dst] is left as it is.
    The result is the new content of [dst]. *)
Definition Encrypt (c : Block) (dst src : bytes) : outcome bytes :=
  if len src <? BlockSize then Panicked "crypto/aes: input not full block"
  else if len dst <? BlockSize then Panicked "crypto/aes: output not full block"
  else Returned (encryptBlock c (firstn 16 src) ++ skipn 16 dst).

(** [Block.Decrypt(dst, src)], likewise. *)
Definition Decrypt (c : Block) (dst src : bytes) : outcome bytes :=
  if len src <? BlockSize then Panicked "crypto/aes: input not full block"
  else if len dst <? BlockSize then Panicked "crypto/aes: output not full block"
  else Returned (decryptBlock c (firstn 16 src) ++ skipn 16 dst).

End aes.

(** ** crypto/sha256 (FIPS 180-4) *)

Module sha256.

Definition Size : Z := 32.
Definition BlockSize : Z := 64.

Definition mask32 (x : Z) : Z := Z.land x 0xffffffff.

(** [uint32] addition, with its wrap-around. *)
Definition add32 (a b : Z) : Z := mask32 (a + b).

(** [bits.RotateLeft32(x, -n)] *)
Definition rotr (n x : Z) : Z :=
  Z.lor (Z.shiftr x n) (mask32 (Z.shiftl x (32 - n))).

Definition init : list Z :=
  [
   0x6a09e667; 0xbb67ae85; 0x3c6ef372; 0xa54ff53a;
   0x510e527f; 0x9b05688c; 0x1f83d9ab; 0x5be0cd19
  ].

Definition Ch (e f g : Z) : Z :=
  Z.lxor (Z.land e f) (Z.land (Z.lxor e 0xffffffff) g).
Definition Maj (a b c : Z) : Z :=
  Z.lxor (Z.lxor (Z.land a b) (Z.land a c)) (Z.land b c).
Definition Sigma0 (a : Z) : Z :=
  Z.lxor (Z.lxor (rotr 2 a) (rotr 13 a)) (rotr 22 a).
Definition Sigma1 (e : Z) : Z :=
  Z.lxor (Z.lxor (rotr 6 e) (rotr 11 e)) (rotr 25 e).
Definition sigma0 (x : Z) : Z :=
  Z.lxor (Z.lxor (rotr 7 x) (rotr 18 x)) (Z.shiftr x 3).
Definition sigma1 (x : Z) : Z :=
  Z.lxor (Z.lxor (rotr 17 x) (rotr 19 x)) (Z.shiftr x 10).

Definition BEUint32 (b : bytes) : Z :=
  Z.lor (Z.lor (Z.lor (Z.shiftl (nth 0 b 0) 24) (Z.shiftl (nth 1 b 0) 16))
               (Z.shiftl (nth 2 b 0) 8))
        (nth 3 b 0).

Definition BEPutUint32 (w : Z) : bytes :=
  [ Z.land (Z.shiftr w 24) 0xff; Z.land (Z.shiftr w 16) 0xff;
    Z.land (Z.shiftr w 8) 0xff; Z.land w 0xff ].

Definition BEPutUint64 (w : Z) : bytes :=
  BEPutUint32 (Z.shiftr w 32) ++ BEPutUint32 (mask32 w).

(** The first 16 words of the schedule: the block itself. *)
Fixpoint blockWords (n : nat) (p : bytes) : list Z :=
  match n with
  | O => []
  | S n' => BEUint32 p :: blockWords n' (skipn 4 p)
  end.

(** The round constants (FIPS 180-4 section 4.2.2), written as the 256
    bytes of their big-endian encoding. *)
Definition K : list Z :=
  Eval vm_compute in
    blockWords 64
      (unhex ("428a2f9871374491b5c0fbcfe9b5dba53956c25b59f111f1923f82a4ab1c5ed5"
           ++ "d807aa9812835b01243185be550c7dc372be5d7480deb1fe9bdc06a7c19bf174"
           ++ "e49b69c1efbe47860fc19dc6240ca1cc2de92c6f4a7484aa5cb0a9dc76f988da"
           ++ "983e5152a831c66db00327c8bf597fc7c6e00bf3d5a7914706ca635114292967"
           ++ "27b70a852e1b21384d2c6dfc53380d13650a7354766a0abb81c2c92e92722c85"
           ++ "a2bfe8a1a81a664bc24b8b70c76c51a3d192e819d6990624f40e3585106aa070"
           ++ "19a4c1161e376c082748774c34b0bcb5391c0cb34ed8aa4a5b9cca4f682e6ff3"
           ++ "748f82ee78a5636f84c878148cc7020890befffaa4506cebbef9a3f7c67178f2")%string).

(** Words 16 .. 63: [w] holds the schedule so far, most recent word first. *)
Fixpoint schedule (n : nat) (w : list Z) : list Z :=
  match n with
  | O => w
  | S n' =>
      let v1 := nth 1 w 0 in
      let v2 := nth 14 w 0 in
      let t1 := sigma1 v1 in
      let t2 := sigma0 v2 in
      schedule n' (add32 (add32 (add32 t1 (nth 6 w 0)) t2) (nth 15 w 0) :: w)
  end.

Definition round (h : list Z) (kw : Z * Z) : list Z :=
  match h with
  | [a; b; c; d; e; f; g; h'] =>
      let t1 := add32 (add32 (add32 (add32 h' (Sigma1 e)) (Ch e f g)) (fst kw))
                      (snd kw) in
      let t2 := add32 (Sigma0 a) (Maj a b c) in
      [add32 t1 t2; a; b; c; add32 d t1; e; f; g]
  | _ => h
  end.

Fixpoint addWords (x y : list Z) : list Z :=
  match x, y with
  | a :: x', b :: y' => add32 a b :: addWords x' y'
  | _, _ => []
  end.

(** [blockGeneric] on one 64-byte block [p]. *)
Definition block (h : list Z) (p : bytes) : list Z :=
  let w := rev (schedule 48 (rev (blockWords 16 p))) in
  addWords h (fold_left round (combine K w) h).

(** All full blocks of [p], in order. *)
Fixpoint blocks (fuel : nat) (h : list Z) (p : bytes) : list Z :=
  match fuel with
  | O => h
  | S fuel' =>
      if len p <? BlockSize then h
      else blocks fuel' (block h (firstn 64 p)) (skipn 64 p)
  end.

(** The padding [checkSum] appends: 0x80, zeros up to 56 mod 64, and the
    length in bits as a big-endian 64-bit integer. *)
Definition padding (n : Z) : bytes :=
  let t := n mod 64 in
  let k := if t <? 56 then 56 - t else 64 + 56 - t in
  0x80 :: repeat 0 (Z.to_nat (k - 1)) ++ BEPutUint64 (Z.shiftl n 3).

(** [sha256.Sum256(data)], as a slice. *)
Definition Sum256 (data : bytes) : bytes :=
  let p := data ++ padding (len data) in
  flat_map BEPutUint32 (blocks (length p) init p).

End sha256.

(** ** crypto/hmac (RFC 2104), instantiated at SHA-256 *)

Module hmac.

Definition xorPad (pad : Z) (key : bytes) : bytes :=
  map (fun k => Z.lxor k pad) key.

(** [hmac.New(sha256.New, key)]: a key longer than the block size is hashed
    first, then the key is padded with zeros to the block size. *)
Definition blockKey (key : bytes) : bytes :=
  let k := if sha256.BlockSize <? len key then sha256.Sum256 key else key in
  k ++ repeat 0 (Z.to_nat (sha256.BlockSize - len k)).

(** [Reset; Write(msg); Sum(nil)] on the MAC keyed with [key]. *)
Definition Sum (key msg : bytes) : bytes :=
  let k := blockKey key in
  sha256.Sum256 (xorPad 0x5c k ++ sha256.Sum256 (xorPad 0x36 k ++ msg)).

End hmac.

(** ** crypto/pbkdf2 (RFC 8018), with HMAC-SHA-256 as the PRF *)

Module pbkdf2.

Fixpoint xorBytes (x y : bytes) : bytes :=
  match x, y with
  | a :: x', b :: y' => Z.lxor a b :: xorBytes x' y'
  | _, _ => []
  end.

(** One turn of the inner loop: [U = PRF(U); T ^= U]. *)
Definition step (password : bytes) (tu : bytes * bytes) : bytes * bytes :=
  let u := hmac.Sum password (snd tu) in
  (xorBytes (fst tu) u, u).

(** Block number [i] of the derived key: U_1 ^ U_2 ^ ... ^ U_iter. *)
Definition F (password salt : bytes) (iter i : Z) : bytes :=
  let u1 := hmac.Sum password (salt ++ sha256.BEPutUint32 i) in
  fst (Z.iter (iter - 1) (step password) (u1, u1)).

(** The outer loop: blocks [i .. ], appended to [dk]. *)
Fixpoint derive (n : nat) (password salt : bytes) (iter i : Z) : bytes :=
  match n with
  | O => []
  | S n' => F password salt iter i ++ derive n' password salt iter (i + 1)
  end.

(** [pbkdf2.Key(sha256.New, password, salt, iter, keyLength)] *)
Definition Key (password : string) (salt : bytes) (iter keyLength : Z)
  : bytes * option error :=
  if keyLength <=? 0 then
    ([], Some (ErrKeyLength "pbkdf2: keyLength must be larger than 0"))
  else
    let hashLen := sha256.Size in
    let numBlocks := (keyLength + hashLen - 1) / hashLen in
    if 0xffffffff <? numBlocks then
      ([], Some (ErrKeyLength "pbkdf2: keyLength too long"))
    else
      let dk := derive (Z.to_nat numBlocks) (bytes_of_string password) salt
                       iter 1 in
      (firstn (Z.to_nat keyLength) dk, None).

End pbkdf2.

(** ** crypto/rand and the effects of a call *)

(** What a call can observe outside its arguments: the bytes the operating
    system's entropy source will still deliver.  A read that asks for more
    than is left is the failure of the source. *)
Record World : Type := mkWorld {
  entropy : bytes
}.

(** A Go call: it reads and updates the world, and returns or panics. *)
Definition Go (A : Type) : Type := World -> outcome A * World.

Definition ret {A} (a : A) : Go A := fun w => (Returned a, w).


Definition lift {A} (m : outcome A) : Go A := fun w => (m, w).

Definition gbind {A B} (m : Go A) (k : A -> Go B) : Go B :=
  fun w =>
    match m w with
    | (Returned a, w') => k a w'
    | (Panicked msg, w') => (Panicked msg, w')
    end.

Notation "x <~ m ;; k" := (gbind m (fun x => k))
  (at level 61, m at next level, right associativity).
Notation "' p <~ m ;; k" := (gbind m (fun x => match x with p => k end))
  (at level 61, p pattern, m at next level, right associativity).

Module rand.

(** [rand.Read(b)]: fills [b] in place from the entropy source and returns
    the number of bytes read and an error if the source gave out before [b]
    was full.  The result carries the new content of [b]. *)
Definition Read (b : bytes) : Go (bytes * Z * option error) :=
  fun w =>
    let got := firstn (length b) (entropy w) in
    let b' := got ++ skipn (length got) b in
    let err := if len got <? len b then Some ErrEntropy else None in
    (Returned (b', len got, err),
     {| entropy := skipn (length b) (entropy w) |}).

End rand.

(** ** The package [internal/crypto] *)

(** *** aes.go *)


Definition EncryptAES256 (data key iv : bytes) : Go (bytes * option error) :=
  match aes.NewCipher key with
  | inr err => ret ([], Some err)
  | inl block =>
      let out := make (len data) in
      out <~ lift (aes.Encrypt block out data) ;;
      ret (out, None)
  end.

Definition DecryptAES256 (encryptedData key iv : bytes)
  : Go (bytes * option error) :=
  match aes.NewCipher key with
  | inr err => ret ([], Some err)
  | inl block =>
      let out := make (len encryptedData) in
      out <~ lift (aes.Decrypt block out encryptedData) ;;
      ret (out, None)
  end.

(** *** pbkdf2.go *)

Definition SaltSize : Z := 32.
Definition KeySize : Z := 32.
Definition Iterations : Z := 100000.

Definition GenerateSalt : Go (bytes * option error) :=
  let salt := make SaltSize in
  '(salt, _, err) <~ rand.Read salt ;;
  ret (salt, err).

Definition DeriveKey (password : string) (salt : bytes)
  : Go (bytes * option error) :=
  ret (pbkdf2.Key password salt Iterations KeySize).

(** ** Test data and the notions the claims are stated with *)

(** FIPS-197 Appendix C: the example plaintext block and the example keys. *)
Definition fips_plain : bytes := unhex "00112233445566778899aabbccddeeff".
Definition fips_key128 : bytes := unhex "000102030405060708090a0b0c0d0e0f".
Definition fips_key192 : bytes :=
  unhex "000102030405060708090a0b0c0d0e0f1011121314151617".
Definition fips_key256 : bytes :=
  unhex "000102030405060708090a0b0c0d0e0f101112131415161718191a1b1c1d1e1f".
Definition fips_cipher128 : bytes := unhex "69c4e0d86a7b0430d8cdb78070b4c55a".
Definition fips_cipher192 : bytes := unhex "dda97ca4864cdfe06eaf70a0ec0d7191".
Definition fips_cipher256 : bytes := unhex "8ea2b7ca516745bfeafc49904b496089".

(** A world whose entropy source has nothing left, and one with plenty. *)
Definition dry : World := {| entropy := [] |}.
Definition wet : World := {| entropy := map Z.of_nat (seq 1 64) |}.

(** Bit [j] of byte [i] of [c] flipped. *)
Fixpoint flipBit (c : bytes) (i : nat) (j : Z) : bytes :=
  match c, i with
  | [], _ => []
  | x :: c', O => Z.lxor x (Z.shiftl 1 j) :: c'
  | x :: c', S i' => x :: flipBit c' i' j
  end.

(** Decryption of [c] is refused: an error and no plaintext byte. *)
Definition refused (r : outcome (bytes * option error) * World) : Prop :=
  exists e w, r = (Returned ([], Some e), w).

(** Tamper detection at one input: the ciphertext of [m] with bit [j] of
    byte [i] flipped is refused by [DecryptAES256]. *)
Definition tamper_detected (m k v : bytes) (i : nat) (j : Z) (w : World) : Prop :=
  exists c,
    EncryptAES256 m k v w = (Returned (c, None), w) /\
    refused (DecryptAES256 (flipBit c i j) k v w).

(** ** PBKDF2 as RFC 8018 section 5.2 writes it

    [DK = T_1 || T_2 || ... || T_l] cut to [dkLen] bytes, where
    [T_i = U_1 xor U_2 xor ... xor U_c], [U_1 = PRF(P, S || INT(i))] and
    [U_j = PRF(P, U_{j-1})], with HMAC-SHA-256 as the PRF. *)

Module rfc8018.

Definition PRF (P msg : bytes) : bytes := hmac.Sum P msg.

Definition INT (i : Z) : bytes := sha256.BEPutUint32 i.

(** [U P salt i j] is U_{j+1} of block [i]. *)
Fixpoint U (P salt : bytes) (i : Z) (j : nat) : bytes :=
  match j with
  | O => PRF P (salt ++ INT i)
  | S j' => PRF P (U P salt i j')
  end.

(** [T P salt i n] is U_1 xor ... xor U_{n+1} of block [i]. *)
Fixpoint T (P salt : bytes) (i : Z) (n : nat) : bytes :=
  match n with
  | O => U P salt i 0
  | S n' => pbkdf2.xorBytes (T P salt i n') (U P salt i (S n'))
  end.

(** PBKDF2 (P, S, c, dkLen) with hLen = 32: l = ceil(dkLen / hLen) blocks. *)
Definition PBKDF2 (P salt : bytes) (c dkLen : Z) : bytes :=
  let l := (dkLen + 31) / 32 in
  firstn (Z.to_nat dkLen)
    (flat_map (fun i => T P salt (Z.of_nat i) (Z.to_nat c - 1))
              (seq 1 (Z.to_nat l))).

End rfc8018.

(** What a call returned; nothing if it panicked. *)
Definition result_of (r : outcome (bytes * option error)) : bytes * option error :=
  match r with
  | Returned x => x
  | Panicked _ => ([], None)
  end.

(** A call of [DeriveKey] is rejected: an error and no key. *)
Definition rejected (r : outcome (bytes * option error) * World) : Prop :=
  exists e w, r = (Returned ([], Some e), w).

(** Two calls of [DeriveKey] with the same arguments, one after the other. *)
Definition DeriveKey_twice (password : string) (salt : bytes)
  : Go ((bytes * option error) * (bytes * option error)) :=
  r1 <~ DeriveKey password salt ;;
  r2 <~ DeriveKey password salt ;;
  ret (r1, r2).

Definition GenerateSalt_twice
  : Go ((bytes * option error) * (bytes * option error)) :=
  r1 <~ GenerateSalt ;;
  r2 <~ GenerateSalt ;;
  ret (r1, r2).

(** ** The example functions of [pbkdf2_test.go]

    [fmt.Printf] writes to the standard output; an example function is
    modelled as returning the text it writes. *)







(** [string(b)] for a byte slice [b]. *)
Fixpoint string_of_bytes (b : bytes) : string :=
  match b with
  | [] => EmptyString
  | x :: b' => String (ascii_of_N (Z.to_N x)) (string_of_bytes b')
  end.

(** A password of 65 bytes, longer than the block of HMAC-SHA-256. *)
Definition long_password : string :=
  "aaaaaaaaaaaaaaaaaaaaaaaaaaaaaaaaaaaaaaaaaaaaaaaaaaaaaaaaaaaaaaaaa".

(** The keys the cipher accepts. *)
Definition accepted (key : bytes) : Prop :=
  len key = 16 \/ len key = 24 \/ len key = 32.

(** ** Notions used in the statements *)

(** The 256 bytes. *)
Definition all_bytes : list Z := map Z.of_nat (seq 0 256).

Fixpoint beq_bytes (x y : bytes) : bool :=
  match x, y with
  | [], [] => true
  | a :: x', b :: y' => (a =? b) && beq_bytes x' y'
  | _, _ => false
  end.

(** An AES block: 16 bytes. *)
Definition is_block (s : bytes) : Prop := length s = 16%nat /\ is_bytes s.

(** A well-formed cipher object: at least two rounds and a full schedule. *)
Definition wf_block (c : aes.Block) : Prop :=
  2 <= aes.rounds c /\ length (aes.enc c) = Z.to_nat (aes.roundKeysSize (aes.rounds c)).

(** The pair (T, U) of the loop of [pbkdf2.Key] holds two 32-byte values. *)
Definition sized (tu : bytes * bytes) : Prop :=
  length (fst tu) = 32%nat /\ length (snd tu) = 32%nat.

(** * Proofs *)

(** ** Bytes *)

Lemma beq_bytes_eq (x y : bytes) : beq_bytes x y = true -> x = y.
Proof.
  revert y; induction x as [|a x IH]; intros [|b y]; simpl; try discriminate.
  - reflexivity.
  - intros H. apply andb_prop in H as [Hab Hxy].
    apply Z.eqb_eq in Hab. f_equal; auto.
Qed.

Lemma in_all_bytes (x : Z) : is_byte x -> In x all_bytes.
Proof.
  intros Hx. unfold all_bytes. apply in_map_iff.
  exists (Z.to_nat x). split; [apply Z2Nat.id; apply Hx|].
  apply in_seq. unfold is_byte in Hx. lia.
Qed.

(** A property checked on the 256 bytes holds of every byte. *)
Lemma forall_bytes (p : Z -> bool) :
  forallb p all_bytes = true -> forall x, is_byte x -> p x = true.
Proof.
  intros H x Hx. rewrite forallb_forall in H. apply H, in_all_bytes, Hx.
Qed.

Lemma is_byte_land (x : Z) : is_byte (Z.land x 0xff).
Proof.
  unfold is_byte. change 0xff with (Z.ones 8).
  rewrite Z.land_ones by lia. apply Z.mod_pos_bound. reflexivity.
Qed.

Lemma is_byte_iff (x : Z) : is_byte x <-> Z.land x 0xff = x.
Proof.
  split.
  - intros Hx. change 0xff with (Z.ones 8). rewrite Z.land_ones by lia.
    apply Z.mod_small. exact Hx.
  - intros <-. apply is_byte_land.
Qed.

Lemma land_lxor_distr (a b m : Z) :
  Z.land (Z.lxor a b) m = Z.lxor (Z.land a m) (Z.land b m).
Proof.
  apply Z.bits_inj'. intros n Hn.
  rewrite Z.land_spec, !Z.lxor_spec, !Z.land_spec. btauto.
Qed.

Lemma is_byte_lxor (a b : Z) : is_byte a -> is_byte b -> is_byte (Z.lxor a b).
Proof.
  rewrite !is_byte_iff. intros Ha Hb.
  rewrite land_lxor_distr, Ha, Hb. reflexivity.
Qed.

Lemma is_byte_0 : is_byte 0.
Proof. unfold is_byte. lia. Qed.

Create HintDb bytes.
#[global] Hint Resolve is_byte_land is_byte_lxor is_byte_0 : bytes.

Lemma is_bytes_app (x y : bytes) : is_bytes x -> is_bytes y -> is_bytes (x ++ y).
Proof. unfold is_bytes. intros. apply Forall_app. split; assumption. Qed.

Lemma is_bytes_firstn (n : nat) (x : bytes) : is_bytes x -> is_bytes (firstn n x).
Proof.
  unfold is_bytes. revert x; induction n as [|n IH]; intros [|a x] H; simpl;
    try constructor; inversion H; subst; auto.
Qed.

Lemma is_bytes_skipn (n : nat) (x : bytes) : is_bytes x -> is_bytes (skipn n x).
Proof.
  unfold is_bytes. revert x; induction n as [|n IH]; intros [|a x] H; simpl;
    try assumption; inversion H; subst; auto.
Qed.

Lemma is_bytes_repeat (n : nat) : is_bytes (repeat 0 n).
Proof.
  unfold is_bytes. induction n; simpl; constructor; auto with bytes.
Qed.

Lemma len_make (n : Z) : 0 <= n -> len (make n) = n.
Proof. intros Hn. unfold len, make. rewrite repeat_length. lia. Qed.

Lemma len_app (x y : bytes) : len (x ++ y) = len x + len y.
Proof. unfold len. rewrite length_app. lia. Qed.

Lemma len_nonneg (x : bytes) : 0 <= len x.
Proof. unfold len. lia. Qed.

(** ** The AES state transformations are bijections on blocks *)

Module aes_facts.
Import aes.

Ltac destruct_block s :=
  do 16 (destruct s as [|? s]; [discriminate|]);
  destruct s; [|discriminate].

Lemma sub_isub (x : Z) : is_byte x -> sub (isub x) = x.
Proof.
  intros Hx. apply Z.eqb_eq.
  apply (forall_bytes (fun x => sub (isub x) =? x)); [|exact Hx].
  vm_compute. reflexivity.
Qed.

Lemma isub_sub (x : Z) : is_byte x -> isub (sub x) = x.
Proof.
  intros Hx. apply Z.eqb_eq.
  apply (forall_bytes (fun x => isub (sub x) =? x)); [|exact Hx].
  vm_compute. reflexivity.
Qed.

Lemma is_byte_nth (t : list Z) (n : nat) : is_bytes t -> is_byte (nth n t 0).
Proof.
  intros Ht. destruct (Nat.lt_ge_cases n (length t)) as [Hn|Hn].
  - unfold is_bytes in Ht. rewrite Forall_forall in Ht. apply Ht, nth_In, Hn.
  - rewrite nth_overflow by exact Hn. apply is_byte_0.
Qed.

Lemma is_bytes_dec (t : list Z) :
  forallb (fun x => (0 <=? x) && (x <? 256)) t = true -> is_bytes t.
Proof.
  intros H. unfold is_bytes. apply Forall_forall. intros x Hx.
  rewrite forallb_forall in H. specialize (H x Hx).
  unfold is_byte. lia.
Qed.

Lemma sbox0_bytes : is_bytes sbox0.
Proof. apply is_bytes_dec. vm_compute. reflexivity. Qed.

Lemma sbox1_bytes : is_bytes sbox1.
Proof. apply is_bytes_dec. vm_compute. reflexivity. Qed.

Lemma is_byte_sub (x : Z) : is_byte (sub x).
Proof. apply is_byte_nth, sbox0_bytes. Qed.

Lemma is_byte_isub (x : Z) : is_byte (isub x).
Proof. apply is_byte_nth, sbox1_bytes. Qed.

(** *** Multiplication by a constant of GF(2^8) is linear *)

Lemma xtime_lxor (a b : Z) : xtime (Z.lxor a b) = Z.lxor (xtime a) (xtime b).
Proof.
  unfold xtime. rewrite Z.lxor_spec.
  assert (Hs : Z.shiftl (Z.lxor a b) 1 = Z.lxor (Z.shiftl a 1) (Z.shiftl b 1)).
  { apply Z.bits_inj'. intros n Hn.
    rewrite Z.lxor_spec, !Z.shiftl_spec, Z.lxor_spec by assumption.
    reflexivity. }
  rewrite Hs, land_lxor_distr.
  destruct (Z.testbit a 7), (Z.testbit b 7); simpl xorb;
    apply Z.bits_inj'; intros n Hn; rewrite ?Z.lxor_spec, ?Z.bits_0; btauto.
Qed.

Lemma is_byte_xtime (x : Z) : is_byte (xtime x).
Proof.
  unfold xtime. apply is_byte_lxor; [apply is_byte_land|].
  destruct (Z.testbit x 7); unfold is_byte; lia.
Qed.

Lemma xor4_lxor (a b c d a' b' c' d' : Z) :
  xor4 (Z.lxor a a') (Z.lxor b b') (Z.lxor c c') (Z.lxor d d') =
  Z.lxor (xor4 a b c d) (xor4 a' b' c' d').
Proof.
  unfold xor4. apply Z.bits_inj'. intros n Hn.
  rewrite !Z.lxor_spec. btauto.
Qed.

Lemma xor4_transpose (a1 b1 c1 d1 a2 b2 c2 d2 a3 b3 c3 d3 a4 b4 c4 d4 : Z) :
  xor4 (xor4 a1 b1 c1 d1) (xor4 a2 b2 c2 d2)
       (xor4 a3 b3 c3 d3) (xor4 a4 b4 c4 d4) =
  xor4 (xor4 a1 a2 a3 a4) (xor4 b1 b2 b3 b4)
       (xor4 c1 c2 c3 c4) (xor4 d1 d2 d3 d4).
Proof.
  unfold xor4. apply Z.bits_inj'. intros n Hn.
  rewrite !Z.lxor_spec. btauto.
Qed.

Lemma is_byte_xor4 (a b c d : Z) :
  is_byte a -> is_byte b -> is_byte c -> is_byte d -> is_byte (xor4 a b c d).
Proof. intros. unfold xor4. auto with bytes. Qed.

Ltac mul_linear :=
  intros; unfold mul2, mul3, mul9, mul11, mul13, mul14, xor4;
  rewrite ?xtime_lxor;
  apply Z.bits_inj'; intros n Hn; rewrite ?Z.lxor_spec; btauto.

Lemma mul2_xor4 a b c d :
  mul2 (xor4 a b c d) = xor4 (mul2 a) (mul2 b) (mul2 c) (mul2 d).
Proof. mul_linear. Qed.
Lemma mul3_xor4 a b c d :
  mul3 (xor4 a b c d) = xor4 (mul3 a) (mul3 b) (mul3 c) (mul3 d).
Proof. mul_linear. Qed.
Lemma mul9_xor4 a b c d :
  mul9 (xor4 a b c d) = xor4 (mul9 a) (mul9 b) (mul9 c) (mul9 d).
Proof. mul_linear. Qed.
Lemma mul11_xor4 a b c d :
  mul11 (xor4 a b c d) = xor4 (mul11 a) (mul11 b) (mul11 c) (mul11 d).
Proof. mul_linear. Qed.
Lemma mul13_xor4 a b c d :
  mul13 (xor4 a b c d) = xor4 (mul13 a) (mul13 b) (mul13 c) (mul13 d).
Proof. mul_linear. Qed.
Lemma mul14_xor4 a b c d :
  mul14 (xor4 a b c d) = xor4 (mul14 a) (mul14 b) (mul14 c) (mul14 d).
Proof. mul_linear. Qed.

Lemma is_byte_mul (x : Z) :
  is_byte x ->
  is_byte (mul2 x) /\ is_byte (mul3 x) /\ is_byte (mul9 x) /\
  is_byte (mul11 x) /\ is_byte (mul13 x) /\ is_byte (mul14 x).
Proof.
  intros Hx. unfold mul2, mul3, mul9, mul11, mul13, mul14.
  repeat match goal with |- _ /\ _ => split end;
    auto 6 using is_byte_lxor, is_byte_xtime.
Qed.

End aes_facts.

Module aes_cols.
Import aes aes_facts.

Ltac by_bytes Hx :=
  apply beq_bytes_eq; revert Hx;
  match goal with
  | |- is_byte ?x -> ?G =>
      let p := eval pattern x in G in
      match p with
      | ?P x =>
          intros Hx;
          match P with
          | (fun y => @?q y = true) => apply (forall_bytes q); [|exact Hx]
          end
      end
  end;
  vm_compute; reflexivity.

Lemma invMix_col0 a : is_byte a -> invMixColumn (mul2 a) a a (mul3 a) = [a; 0; 0; 0].
Proof. intros Ha. by_bytes Ha. Qed.
Lemma invMix_col1 b : is_byte b -> invMixColumn (mul3 b) (mul2 b) b b = [0; b; 0; 0].
Proof. intros Hb. by_bytes Hb. Qed.
Lemma invMix_col2 c : is_byte c -> invMixColumn c (mul3 c) (mul2 c) c = [0; 0; c; 0].
Proof. intros Hc. by_bytes Hc. Qed.
Lemma invMix_col3 d : is_byte d -> invMixColumn d d (mul3 d) (mul2 d) = [0; 0; 0; d].
Proof. intros Hd. by_bytes Hd. Qed.

Lemma mix_col0 a :
  is_byte a -> mixColumn (mul14 a) (mul9 a) (mul13 a) (mul11 a) = [a; 0; 0; 0].
Proof. intros Ha. by_bytes Ha. Qed.
Lemma mix_col1 b :
  is_byte b -> mixColumn (mul11 b) (mul14 b) (mul9 b) (mul13 b) = [0; b; 0; 0].
Proof. intros Hb. by_bytes Hb. Qed.
Lemma mix_col2 c :
  is_byte c -> mixColumn (mul13 c) (mul11 c) (mul14 c) (mul9 c) = [0; 0; c; 0].
Proof. intros Hc. by_bytes Hc. Qed.
Lemma mix_col3 d :
  is_byte d -> mixColumn (mul9 d) (mul13 d) (mul11 d) (mul14 d) = [0; 0; 0; d].
Proof. intros Hd. by_bytes Hd. Qed.

Ltac use_col L :=
  let H := fresh in
  pose proof L as H; unfold mixColumn, invMixColumn in H;
  let H0 := fresh in let H1 := fresh in let H2 := fresh in let H3 := fresh in
  injection H as H0 H1 H2 H3; rewrite ?H0, ?H1, ?H2, ?H3;
  clear H0 H1 H2 H3.

Ltac xor_zero :=
  unfold xor4; rewrite ?Z.lxor_0_r, ?Z.lxor_0_l; reflexivity.

(** InvMixColumns undoes MixColumns on every column. *)
Lemma invMix_mix (a b c d : Z) :
  is_byte a -> is_byte b -> is_byte c -> is_byte d ->
  invMixColumn (xor4 (mul2 a) (mul3 b) c d) (xor4 a (mul2 b) (mul3 c) d)
               (xor4 a b (mul2 c) (mul3 d)) (xor4 (mul3 a) b c (mul2 d))
  = [a; b; c; d].
Proof.
  intros Ha Hb Hc Hd. unfold invMixColumn.
  rewrite !mul14_xor4, !mul11_xor4, !mul13_xor4, !mul9_xor4.
  repeat f_equal; rewrite xor4_transpose;
    use_col (invMix_col0 Ha); use_col (invMix_col1 Hb);
    use_col (invMix_col2 Hc); use_col (invMix_col3 Hd); xor_zero.
Qed.

Lemma mix_invMix (a b c d : Z) :
  is_byte a -> is_byte b -> is_byte c -> is_byte d ->
  mixColumn (xor4 (mul14 a) (mul11 b) (mul13 c) (mul9 d))
            (xor4 (mul9 a) (mul14 b) (mul11 c) (mul13 d))
            (xor4 (mul13 a) (mul9 b) (mul14 c) (mul11 d))
            (xor4 (mul11 a) (mul13 b) (mul9 c) (mul14 d))
  = [a; b; c; d].
Proof.
  intros Ha Hb Hc Hd. unfold mixColumn.
  rewrite !mul2_xor4, !mul3_xor4.
  repeat f_equal; rewrite xor4_transpose;
    use_col (mix_col0 Ha); use_col (mix_col1 Hb);
    use_col (mix_col2 Hc); use_col (mix_col3 Hd); xor_zero.
Qed.

End aes_cols.

Module aes_state.
Import aes aes_facts aes_cols.

Ltac split_bytes :=
  repeat match goal with
  | H : is_bytes (_ :: _) |- _ =>
      let Hx := fresh "Hb" in
      apply Forall_cons_iff in H as [Hx H]
  | H : Forall is_byte (_ :: _) |- _ =>
      let Hx := fresh "Hb" in
      apply Forall_cons_iff in H as [Hx H]
  end.

Ltac open_block s H :=
  let Hl := fresh "Hl" in
  let Hb := fresh "Hbs" in
  destruct H as [Hl Hb]; destruct_block s; unfold is_bytes in Hb; split_bytes.

Lemma is_bytes_cons (a : Z) (s : bytes) :
  is_byte a -> is_bytes s -> is_bytes (a :: s).
Proof. intros. constructor; assumption. Qed.

Lemma is_bytes_nil : is_bytes [].
Proof. constructor. Qed.

Lemma is_byte_mul2 x : is_byte x -> is_byte (mul2 x).
Proof. intros H. apply (is_byte_mul H). Qed.
Lemma is_byte_mul3 x : is_byte x -> is_byte (mul3 x).
Proof. intros H. apply (is_byte_mul H). Qed.
Lemma is_byte_mul9 x : is_byte x -> is_byte (mul9 x).
Proof. intros H. apply (is_byte_mul H). Qed.
Lemma is_byte_mul11 x : is_byte x -> is_byte (mul11 x).
Proof. intros H. apply (is_byte_mul H). Qed.
Lemma is_byte_mul13 x : is_byte x -> is_byte (mul13 x).
Proof. intros H. apply (is_byte_mul H). Qed.
Lemma is_byte_mul14 x : is_byte x -> is_byte (mul14 x).
Proof. intros H. apply (is_byte_mul H). Qed.

#[global] Hint Resolve is_bytes_cons is_bytes_nil is_byte_sub is_byte_isub
  is_byte_xor4 is_byte_nth is_byte_mul2 is_byte_mul3 is_byte_mul9
  is_byte_mul11 is_byte_mul13 is_byte_mul14 : bytes.

(** SubBytes *)

Lemma SubBytes_block s : is_block s -> is_block (SubBytes s).
Proof.
  intros [Hl Hb]. split; unfold SubBytes.
  - rewrite length_map. exact Hl.
  - apply Forall_map, Forall_forall. intros. apply is_byte_sub.
Qed.

Lemma InvSubBytes_block s : is_block s -> is_block (InvSubBytes s).
Proof.
  intros [Hl Hb]. split; unfold InvSubBytes.
  - rewrite length_map. exact Hl.
  - apply Forall_map, Forall_forall. intros. apply is_byte_isub.
Qed.

Lemma InvSubBytes_SubBytes s : is_bytes s -> InvSubBytes (SubBytes s) = s.
Proof.
  unfold InvSubBytes, SubBytes. induction 1 as [|x s Hx Hs IH]; simpl.
  - reflexivity.
  - rewrite isub_sub, IH by assumption. reflexivity.
Qed.

Lemma SubBytes_InvSubBytes s : is_bytes s -> SubBytes (InvSubBytes s) = s.
Proof.
  unfold InvSubBytes, SubBytes. induction 1 as [|x s Hx Hs IH]; simpl.
  - reflexivity.
  - rewrite sub_isub, IH by assumption. reflexivity.
Qed.

(** ShiftRows *)

Lemma permute_bytes p s : is_bytes s -> is_bytes (permute p s).
Proof.
  intros Hs. unfold permute. apply Forall_map, Forall_forall.
  intros. apply is_byte_nth, Hs.
Qed.

Lemma ShiftRows_block s : is_block s -> is_block (ShiftRows s).
Proof.
  intros [Hl Hb]. split; [reflexivity|]. apply permute_bytes, Hb.
Qed.

Lemma InvShiftRows_block s : is_block s -> is_block (InvShiftRows s).
Proof.
  intros [Hl Hb]. split; [reflexivity|]. apply permute_bytes, Hb.
Qed.

Lemma InvShiftRows_ShiftRows s :
  length s = 16%nat -> InvShiftRows (ShiftRows s) = s.
Proof. intros Hl. destruct_block s. reflexivity. Qed.

Lemma ShiftRows_InvShiftRows s :
  length s = 16%nat -> ShiftRows (InvShiftRows s) = s.
Proof. intros Hl. destruct_block s. reflexivity. Qed.

(** MixColumns *)

Lemma MixColumns_block s : is_block s -> is_block (MixColumns s).
Proof.
  intros H. open_block s H. split; [reflexivity|].
  cbn [MixColumns mixColumn app].
  repeat apply is_bytes_cons; auto with bytes.
Qed.

Lemma InvMixColumns_block s : is_block s -> is_block (InvMixColumns s).
Proof.
  intros H. open_block s H. split; [reflexivity|].
  cbn [InvMixColumns invMixColumn app].
  repeat apply is_bytes_cons; auto with bytes.
Qed.

Lemma InvMixColumns_MixColumns s :
  is_block s -> InvMixColumns (MixColumns s) = s.
Proof.
  intros H. open_block s H.
  cbn [MixColumns InvMixColumns mixColumn app].
  rewrite !invMix_mix by assumption. reflexivity.
Qed.

Lemma MixColumns_InvMixColumns s :
  is_block s -> MixColumns (InvMixColumns s) = s.
Proof.
  intros H. open_block s H.
  cbn [MixColumns InvMixColumns invMixColumn app].
  rewrite !mix_invMix by assumption. reflexivity.
Qed.

(** AddRoundKey *)

Lemma xorBytes_length x y :
  length (xorBytes x y) = Nat.min (length x) (length y).
Proof.
  revert y; induction x as [|a x IH]; intros [|b y]; simpl; auto.
Qed.

Lemma xorBytes_bytes x y : is_bytes x -> is_bytes y -> is_bytes (xorBytes x y).
Proof.
  intros Hx; revert y; induction Hx as [|a x Ha Hx IH]; intros y Hy; simpl.
  - constructor.
  - destruct Hy as [|b y Hb Hy]; constructor.
    + apply is_byte_lxor; assumption.
    + apply IH, Hy.
Qed.

Lemma xorBytes_cancel x y :
  (length x <= length y)%nat -> xorBytes (xorBytes x y) y = x.
Proof.
  revert y; induction x as [|a x IH]; intros [|b y] Hl; simpl in *;
    try reflexivity; try lia.
  rewrite Z.lxor_assoc, Z.lxor_nilpotent, Z.lxor_0_r, IH by lia.
  reflexivity.
Qed.

Lemma AddRoundKey_block s rk : is_block s -> is_block rk -> is_block (AddRoundKey s rk).
Proof.
  intros [Hl Hb] [Hl' Hb']. split.
  - unfold AddRoundKey. rewrite xorBytes_length, Hl, Hl'. reflexivity.
  - apply xorBytes_bytes; assumption.
Qed.

Lemma AddRoundKey_cancel s rk :
  is_block s -> is_block rk -> AddRoundKey (AddRoundKey s rk) rk = s.
Proof.
  intros [Hl _] [Hl' _]. apply xorBytes_cancel. lia.
Qed.

(** Rounds *)

Lemma encRound_block s rk : is_block s -> is_block rk -> is_block (encRound s rk).
Proof.
  intros. unfold encRound.
  auto using AddRoundKey_block, MixColumns_block, ShiftRows_block, SubBytes_block.
Qed.

Lemma decRound_block s rk : is_block s -> is_block rk -> is_block (decRound rk s).
Proof.
  intros. unfold decRound.
  auto using AddRoundKey_block, InvMixColumns_block, InvShiftRows_block,
    InvSubBytes_block.
Qed.

Lemma encFinal_block s rk : is_block s -> is_block rk -> is_block (encFinal s rk).
Proof.
  intros. unfold encFinal.
  auto using AddRoundKey_block, ShiftRows_block, SubBytes_block.
Qed.

Lemma decFinal_block s rk : is_block s -> is_block rk -> is_block (decFinal rk s).
Proof.
  intros. unfold decFinal.
  auto using AddRoundKey_block, InvShiftRows_block, InvSubBytes_block.
Qed.

Lemma decRound_encRound s rk :
  is_block s -> is_block rk -> decRound rk (encRound s rk) = s.
Proof.
  intros Hs Hk. unfold decRound, encRound.
  pose proof (SubBytes_block Hs) as H1.
  pose proof (ShiftRows_block H1) as H2.
  pose proof (MixColumns_block H2) as H3.
  rewrite AddRoundKey_cancel, InvMixColumns_MixColumns by assumption.
  rewrite InvShiftRows_ShiftRows by apply H1.
  apply InvSubBytes_SubBytes, Hs.
Qed.

Lemma encRound_decRound s rk :
  is_block s -> is_block rk -> encRound (decRound rk s) rk = s.
Proof.
  intros Hs Hk. unfold decRound, encRound.
  pose proof (AddRoundKey_block Hs Hk) as H1.
  pose proof (InvMixColumns_block H1) as H2.
  pose proof (InvShiftRows_block H2) as H3.
  rewrite SubBytes_InvSubBytes by apply H3.
  rewrite ShiftRows_InvShiftRows by apply H2.
  rewrite MixColumns_InvMixColumns by assumption.
  apply AddRoundKey_cancel; assumption.
Qed.

Lemma decFinal_encFinal s rk :
  is_block s -> is_block rk -> decFinal rk (encFinal s rk) = s.
Proof.
  intros Hs Hk. unfold decFinal, encFinal.
  pose proof (SubBytes_block Hs) as H1.
  pose proof (ShiftRows_block H1) as H2.
  rewrite AddRoundKey_cancel by assumption.
  rewrite InvShiftRows_ShiftRows by apply H1.
  apply InvSubBytes_SubBytes, Hs.
Qed.

Lemma encFinal_decFinal s rk :
  is_block s -> is_block rk -> encFinal (decFinal rk s) rk = s.
Proof.
  intros Hs Hk. unfold decFinal, encFinal.
  pose proof (AddRoundKey_block Hs Hk) as H1.
  pose proof (InvShiftRows_block H1) as H2.
  rewrite SubBytes_InvSubBytes by apply H2.
  rewrite ShiftRows_InvShiftRows by apply H1.
  apply AddRoundKey_cancel; assumption.
Qed.

Lemma fold_encRound_block ks s :
  Forall is_block ks -> is_block s -> is_block (fold_left encRound ks s).
Proof.
  intros Hks; revert s; induction Hks as [|k ks Hk Hks IH]; intros s Hs; simpl.
  - exact Hs.
  - apply IH, encRound_block; assumption.
Qed.

Lemma fold_decRound_block ks s :
  Forall is_block ks -> is_block s -> is_block (fold_right decRound s ks).
Proof.
  intros Hks Hs; induction Hks as [|k ks Hk Hks IH]; simpl.
  - exact Hs.
  - apply decRound_block; assumption.
Qed.

Lemma fold_dec_enc ks s :
  Forall is_block ks -> is_block s ->
  fold_right decRound (fold_left encRound ks s) ks = s.
Proof.
  intros Hks; revert s; induction Hks as [|k ks Hk Hks IH]; intros s Hs; simpl.
  - reflexivity.
  - rewrite IH by (apply encRound_block; assumption).
    apply decRound_encRound; assumption.
Qed.

Lemma fold_enc_dec ks s :
  Forall is_block ks -> is_block s ->
  fold_left encRound ks (fold_right decRound s ks) = s.
Proof.
  intros Hks Hs; induction Hks as [|k ks Hk Hks IH]; simpl.
  - reflexivity.
  - rewrite encRound_decRound by (auto using fold_decRound_block).
    exact IH.
Qed.

(** *** Round keys *)

Lemma BEPutUint32_bytes w : is_bytes (BEPutUint32 w).
Proof. unfold BEPutUint32. repeat apply is_bytes_cons; auto with bytes. Qed.

Lemma flat_map_BEPutUint32_length ws :
  length (flat_map BEPutUint32 ws) = (4 * length ws)%nat.
Proof.
  induction ws as [|w ws IH]; cbn [flat_map]; [reflexivity|].
  rewrite length_app, IH. simpl length. lia.
Qed.

Lemma flat_map_BEPutUint32_bytes ws : is_bytes (flat_map BEPutUint32 ws).
Proof.
  induction ws as [|w ws IH]; cbn [flat_map]; [constructor|].
  apply is_bytes_app; [apply BEPutUint32_bytes|exact IH].
Qed.

Lemma roundKey_block c r :
  (4 * r + 4 <= length (enc c))%nat -> is_block (roundKey c r).
Proof.
  intros H. unfold roundKey. split.
  - rewrite flat_map_BEPutUint32_length, length_firstn, length_skipn. lia.
  - apply flat_map_BEPutUint32_bytes.
Qed.

Lemma keyWords_length n key : length (keyWords n key) = n.
Proof. revert key; induction n; intros; simpl; auto. Qed.

Lemma expandLoop_length fuel nk i w :
  length (expandLoop fuel nk i w) = (length w + fuel)%nat.
Proof.
  revert i w; induction fuel as [|f IH]; intros; cbn [expandLoop].
  - lia.
  - rewrite IH, length_app. cbn [length]. lia.
Qed.

Lemma expandKey_wf key : 0 <= len key / 4 -> wf_block (expandKey key).
Proof.
  intros H. unfold wf_block, expandKey; cbn [rounds enc]. split; [lia|].
  rewrite expandLoop_length, keyWords_length. unfold roundKeysSize. lia.
Qed.

Lemma NewCipher_wf key c : NewCipher key = inl c -> wf_block c.
Proof.
  unfold NewCipher. destruct (_ || _); [|discriminate].
  intros [= <-]. apply expandKey_wf.
  apply Z.div_pos; [apply len_nonneg|lia].
Qed.

Lemma wf_roundKey c r :
  wf_block c -> (r <= Z.to_nat (rounds c))%nat -> is_block (roundKey c r).
Proof.
  intros [Hr Hl] Hle. apply roundKey_block. rewrite Hl.
  unfold roundKeysSize. lia.
Qed.

Lemma wf_middleKeys c : wf_block c -> Forall is_block (middleKeys c).
Proof.
  intros Hc. unfold middleKeys. apply Forall_map, Forall_forall.
  intros r Hr. apply in_seq in Hr. apply wf_roundKey; [exact Hc|].
  destruct Hc. lia.
Qed.

Lemma wf_lastKey c : wf_block c -> is_block (lastKey c).
Proof. intros Hc. apply wf_roundKey; [exact Hc|lia]. Qed.

(** *** The block cipher and its inverse *)

Lemma encryptBlock_block c s : wf_block c -> is_block s -> is_block (encryptBlock c s).
Proof.
  intros Hc Hs. unfold encryptBlock.
  apply encFinal_block; [|apply wf_lastKey, Hc].
  apply fold_encRound_block; [apply wf_middleKeys, Hc|].
  apply AddRoundKey_block; [exact Hs|apply wf_roundKey; [exact Hc|lia]].
Qed.

Lemma decryptBlock_block c s : wf_block c -> is_block s -> is_block (decryptBlock c s).
Proof.
  intros Hc Hs. unfold decryptBlock.
  apply AddRoundKey_block; [|apply wf_roundKey; [exact Hc|lia]].
  apply fold_decRound_block; [apply wf_middleKeys, Hc|].
  apply decFinal_block; [exact Hs|apply wf_lastKey, Hc].
Qed.

(** Deciphering an enciphered block gives the block back. *)
Lemma decryptBlock_encryptBlock c s :
  wf_block c -> is_block s -> decryptBlock c (encryptBlock c s) = s.
Proof.
  intros Hc Hs. unfold decryptBlock, encryptBlock.
  assert (H0 : is_block (roundKey c 0)) by (apply wf_roundKey; [exact Hc|lia]).
  pose proof (wf_middleKeys Hc) as Hm. pose proof (wf_lastKey Hc) as Hn.
  pose proof (AddRoundKey_block Hs H0) as H1.
  rewrite decFinal_encFinal by (auto using fold_encRound_block).
  rewrite fold_dec_enc by assumption.
  apply AddRoundKey_cancel; assumption.
Qed.

(** Enciphering a deciphered block gives the block back. *)
Lemma encryptBlock_decryptBlock c s :
  wf_block c -> is_block s -> encryptBlock c (decryptBlock c s) = s.
Proof.
  intros Hc Hs. unfold decryptBlock, encryptBlock.
  assert (H0 : is_block (roundKey c 0)) by (apply wf_roundKey; [exact Hc|lia]).
  pose proof (wf_middleKeys Hc) as Hm. pose proof (wf_lastKey Hc) as Hn.
  pose proof (decFinal_block Hs Hn) as H1.
  rewrite AddRoundKey_cancel by (auto using fold_decRound_block).
  rewrite fold_enc_dec by assumption.
  apply encFinal_decFinal; assumption.
Qed.

(** Hence the block cipher is injective in both directions. *)
Lemma decryptBlock_inj c s t :
  wf_block c -> is_block s -> is_block t ->
  decryptBlock c s = decryptBlock c t -> s = t.
Proof.
  intros Hc Hs Ht H.
  rewrite <- (encryptBlock_decryptBlock Hc Hs), H.
  apply encryptBlock_decryptBlock; assumption.
Qed.

Lemma encryptBlock_inj c s t :
  wf_block c -> is_block s -> is_block t ->
  encryptBlock c s = encryptBlock c t -> s = t.
Proof.
  intros Hc Hs Ht H.
  rewrite <- (decryptBlock_encryptBlock Hc Hs), H.
  apply decryptBlock_encryptBlock; assumption.
Qed.

End aes_state.

(** ** The package functions *)

Module pkg_facts.
Import aes aes_facts aes_state.

Lemma skipn_repeat {A} (x : A) (k n : nat) :
  skipn k (repeat x n) = repeat x (n - k).
Proof.
  revert n; induction k as [|k IH]; intros [|n]; simpl; auto.
Qed.

Lemma NewCipher_accepts key :
  len key = 16 \/ len key = 24 \/ len key = 32 ->
  NewCipher key = inl (expandKey key).
Proof.
  intros H. unfold NewCipher.
  destruct H as [-> | [-> | ->]]; reflexivity.
Qed.

(** A key of any other length is refused before a schedule is computed. *)
Lemma NewCipher_rejects key :
  len key <> 16 -> len key <> 24 -> len key <> 32 ->
  NewCipher key = inr (KeySizeError (len key)).
Proof.
  intros H1 H2 H3. unfold NewCipher.
  apply Z.eqb_neq in H1, H2, H3. rewrite H1, H2, H3. reflexivity.
Qed.

Lemma EncryptAES256_rejects data key iv w :
  len key <> 16 -> len key <> 24 -> len key <> 32 ->
  EncryptAES256 data key iv w = (Returned ([], Some (KeySizeError (len key))), w).
Proof.
  intros. unfold EncryptAES256. rewrite NewCipher_rejects by assumption.
  reflexivity.
Qed.

Lemma DecryptAES256_rejects data key iv w :
  len key <> 16 -> len key <> 24 -> len key <> 32 ->
  DecryptAES256 data key iv w = (Returned ([], Some (KeySizeError (len key))), w).
Proof.
  intros. unfold DecryptAES256. rewrite NewCipher_rejects by assumption.
  reflexivity.
Qed.

(** With an accepted key, less than one block of input makes the cipher
    panic. *)
Lemma EncryptAES256_short data key iv w c :
  NewCipher key = inl c -> len data < 16 ->
  EncryptAES256 data key iv w = (Panicked "crypto/aes: input not full block", w).
Proof.
  intros Hk Hd. unfold EncryptAES256. rewrite Hk.
  unfold gbind, lift, Encrypt, BlockSize.
  apply Z.ltb_lt in Hd. rewrite Hd. reflexivity.
Qed.

Lemma DecryptAES256_short data key iv w c :
  NewCipher key = inl c -> len data < 16 ->
  DecryptAES256 data key iv w = (Panicked "crypto/aes: input not full block", w).
Proof.
  intros Hk Hd. unfold DecryptAES256. rewrite Hk.
  unfold gbind, lift, Decrypt, BlockSize.
  apply Z.ltb_lt in Hd. rewrite Hd. reflexivity.
Qed.

(** With an accepted key and at least one block of input, the first block
    is enciphered and every later byte of the output is zero. *)
Lemma EncryptAES256_long data key iv w c :
  NewCipher key = inl c -> 16 <= len data ->
  EncryptAES256 data key iv w =
  (Returned (encryptBlock c (firstn 16 data) ++ repeat 0 (length data - 16),
             None), w).
Proof.
  intros Hk Hd. unfold EncryptAES256. rewrite Hk.
  unfold gbind, lift, Encrypt, BlockSize.
  rewrite len_make by apply len_nonneg.
  apply Z.ltb_ge in Hd. rewrite Hd.
  unfold ret, make, len. rewrite skipn_repeat, Nat2Z.id. reflexivity.
Qed.

Lemma DecryptAES256_long data key iv w c :
  NewCipher key = inl c -> 16 <= len data ->
  DecryptAES256 data key iv w =
  (Returned (decryptBlock c (firstn 16 data) ++ repeat 0 (length data - 16),
             None), w).
Proof.
  intros Hk Hd. unfold DecryptAES256. rewrite Hk.
  unfold gbind, lift, Decrypt, BlockSize.
  rewrite len_make by apply len_nonneg.
  apply Z.ltb_ge in Hd. rewrite Hd.
  unfold ret, make, len. rewrite skipn_repeat, Nat2Z.id. reflexivity.
Qed.

Lemma firstn_block (data : bytes) :
  is_bytes data -> 16 <= len data -> is_block (firstn 16 data).
Proof.
  intros Hb Hl. split.
  - rewrite length_firstn. unfold len in Hl. lia.
  - apply is_bytes_firstn, Hb.
Qed.

Lemma firstn_app_block {A} (x y : list A) :
  length x = 16%nat -> firstn 16 (x ++ y) = x.
Proof.
  intros H. rewrite firstn_app, H, Nat.sub_diag, firstn_O, app_nil_r.
  rewrite <- H. apply firstn_all.
Qed.

(** What a round trip returns: the first block of the plaintext, followed
    by zeros. *)
Lemma roundtrip_long data key iv w c :
  NewCipher key = inl c -> is_bytes data -> 16 <= len data ->
  exists ct,
    EncryptAES256 data key iv w = (Returned (ct, None), w) /\
    DecryptAES256 ct key iv w =
    (Returned (firstn 16 data ++ repeat 0 (length data - 16), None), w).
Proof.
  intros Hk Hb Hl. eexists. split.
  - eapply EncryptAES256_long; eassumption.
  - pose proof (NewCipher_wf _ Hk) as Hc.
    pose proof (firstn_block Hb Hl) as Hblk.
    pose proof (encryptBlock_block Hc Hblk) as [He _].
    rewrite (@DecryptAES256_long _ key iv w c Hk).
    + rewrite firstn_app_block by exact He.
      rewrite decryptBlock_encryptBlock by assumption.
      rewrite length_app, He, repeat_length.
      repeat f_equal. unfold len in Hl. lia.
    + rewrite len_app. unfold len. rewrite He. lia.
Qed.

(** On exactly one block the round trip is the identity. *)
Lemma roundtrip_one_block data key iv w c :
  NewCipher key = inl c -> is_bytes data -> len data = 16 ->
  exists ct,
    EncryptAES256 data key iv w = (Returned (ct, None), w) /\
    DecryptAES256 ct key iv w = (Returned (data, None), w).
Proof.
  intros Hk Hb Hl.
  destruct (@roundtrip_long data key iv w c Hk Hb) as (ct & He & Hd); [lia|].
  exists ct. split; [exact He|]. rewrite Hd.
  assert (Hn : length data = 16%nat) by (unfold len in Hl; lia).
  rewrite Hn, <- Hn at 1. rewrite firstn_all. simpl. rewrite app_nil_r.
  reflexivity.
Qed.

End pkg_facts.

Module tamper.
Import aes aes_facts aes_state pkg_facts.

Lemma flipBit_length c i j : length (flipBit c i j) = length c.
Proof.
  revert i; induction c as [|x c IH]; intros [|i]; simpl; auto.
Qed.

Lemma is_byte_bit j : 0 <= j < 8 -> is_byte (Z.shiftl 1 j).
Proof.
  intros Hj. rewrite Z.shiftl_1_l. unfold is_byte. split.
  - apply Z.pow_nonneg. lia.
  - change 256 with (2 ^ 8). apply Z.pow_lt_mono_r; lia.
Qed.

Lemma flipBit_bytes c i j : 0 <= j < 8 -> is_bytes c -> is_bytes (flipBit c i j).
Proof.
  intros Hj Hc; revert i; induction Hc as [|x c Hx Hc IH]; intros [|i]; simpl;
    constructor; auto using is_byte_lxor, is_byte_bit.
  apply IH.
Qed.

Lemma lxor_bit_neq x j : 0 <= j -> Z.lxor x (Z.shiftl 1 j) <> x.
Proof.
  intros Hj H.
  assert (Hb : Z.testbit (Z.lxor x (Z.shiftl 1 j)) j = Z.testbit x j)
    by (rewrite H; reflexivity).
  rewrite Z.lxor_spec, Z.shiftl_spec, Z.sub_diag in Hb by assumption.
  simpl in Hb. destruct (Z.testbit x j); discriminate.
Qed.

(** A flipped bit changes the slice. *)
Lemma flipBit_neq c i j : 0 <= j -> (i < length c)%nat -> flipBit c i j <> c.
Proof.
  intros Hj; revert i; induction c as [|x c IH]; intros [|i] Hi; simpl in *;
    try lia.
  - intros [= H]. apply (lxor_bit_neq Hj H).
  - intros [= H]. apply (IH i); [lia|exact H].
Qed.

Lemma firstn_flipBit n c i j :
  (i < n)%nat -> firstn n (flipBit c i j) = flipBit (firstn n c) i j.
Proof.
  revert c i; induction n as [|n IH]; intros [|x c] [|i] Hi; simpl;
    try reflexivity; try lia.
  rewrite IH by lia. reflexivity.
Qed.

Lemma firstn_flipBit_out n c i j :
  (n <= i)%nat -> firstn n (flipBit c i j) = firstn n c.
Proof.
  revert c i; induction n as [|n IH]; intros [|x c] [|i] Hi; simpl;
    try reflexivity; try lia.
  rewrite IH by lia. reflexivity.
Qed.

(** [DecryptAES256] after a bit flip in the ciphertext, for an accepted key:
    no error, an output as long as the plaintext; a flip in the first block
    alters the first block of the output, a flip after it goes unnoticed. *)
Lemma decrypt_flipped m k v w c i j :
  NewCipher k = inl c -> is_bytes m -> 16 <= len m ->
  (i < length m)%nat -> 0 <= j < 8 ->
  exists ct p,
    EncryptAES256 m k v w = (Returned (ct, None), w) /\
    DecryptAES256 (flipBit ct i j) k v w = (Returned (p, None), w) /\
    len p = len m /\
    ((i < 16)%nat -> firstn 16 p <> firstn 16 m) /\
    ((16 <= i)%nat -> p = firstn 16 m ++ repeat 0 (length m - 16)).
Proof.
  intros Hk Hb Hl Hi Hj.
  pose proof (NewCipher_wf _ Hk) as Hc.
  pose proof (firstn_block Hb Hl) as Hblk.
  pose proof (encryptBlock_block Hc Hblk) as Heb.
  assert (Hn : (16 <= length m)%nat) by (unfold len in Hl; lia).
  set (ct := encryptBlock c (firstn 16 m) ++ repeat 0 (length m - 16)).
  assert (Hct : length ct = length m).
  { unfold ct. rewrite length_app, repeat_length. destruct Heb as [-> _]. lia. }
  assert (Hf : is_block (firstn 16 (flipBit ct i j))).
  { apply firstn_block.
    - apply flipBit_bytes; [exact Hj|]. unfold ct.
      apply is_bytes_app; [apply Heb|apply is_bytes_repeat].
    - unfold len. rewrite flipBit_length, Hct. lia. }
  exists ct, (decryptBlock c (firstn 16 (flipBit ct i j))
              ++ repeat 0 (length m - 16)).
  split; [apply EncryptAES256_long; assumption|].
  split.
  { rewrite (@DecryptAES256_long _ k v w c Hk).
    - rewrite flipBit_length, Hct. reflexivity.
    - unfold len. rewrite flipBit_length, Hct. lia. }
  pose proof (decryptBlock_block Hc Hf) as Hd.
  split.
  { unfold len. rewrite length_app, repeat_length. destruct Hd as [-> _]. lia. }
  split.
  - intros Hi16. rewrite firstn_app_block by apply Hd.
    rewrite <- (decryptBlock_encryptBlock Hc Hblk) at 1.
    intros H. apply decryptBlock_inj in H; try assumption.
    revert H. rewrite firstn_flipBit by exact Hi16.
    unfold ct. rewrite firstn_app_block by apply Heb.
    apply flipBit_neq; [lia|]. destruct Heb as [-> _]. exact Hi16.
  - intros Hi16. f_equal.
    rewrite firstn_flipBit_out by exact Hi16.
    unfold ct. rewrite firstn_app_block by apply Heb.
    apply decryptBlock_encryptBlock; assumption.
Qed.

End tamper.

(** ** SHA-256, HMAC and PBKDF2: sizes *)

Module kdf_facts.

Lemma round_length h kw : length h = 8%nat -> length (sha256.round h kw) = 8%nat.
Proof.
  intros H. do 8 (destruct h as [|? h]; [discriminate|]).
  destruct h; [reflexivity|discriminate].
Qed.

Lemma fold_round_length kws h :
  length h = 8%nat -> length (fold_left sha256.round kws h) = 8%nat.
Proof.
  revert h; induction kws as [|kw kws IH]; intros h H; cbn [fold_left].
  - exact H.
  - apply IH, round_length, H.
Qed.

Lemma addWords_length x y :
  length (sha256.addWords x y) = Nat.min (length x) (length y).
Proof.
  revert y; induction x as [|a x IH]; intros [|b y]; cbn [sha256.addWords length];
    auto.
  rewrite IH. reflexivity.
Qed.

Lemma block_length h p : length h = 8%nat -> length (sha256.block h p) = 8%nat.
Proof.
  intros H. unfold sha256.block.
  rewrite addWords_length, fold_round_length, H by exact H. reflexivity.
Qed.

Lemma blocks_length fuel h p :
  length h = 8%nat -> length (sha256.blocks fuel h p) = 8%nat.
Proof.
  revert h p; induction fuel as [|fuel IH]; intros h p H; cbn [sha256.blocks].
  - exact H.
  - destruct (len p <? sha256.BlockSize); [exact H|].
    apply IH, block_length, H.
Qed.

Lemma flat_map_words_length ws :
  length (flat_map sha256.BEPutUint32 ws) = (4 * length ws)%nat.
Proof.
  induction ws as [|w ws IH]; cbn [flat_map]; [reflexivity|].
  rewrite length_app, IH. cbn [sha256.BEPutUint32 length]. lia.
Qed.

(** A SHA-256 digest is 32 bytes long. *)
Lemma Sum256_length data : length (sha256.Sum256 data) = 32%nat.
Proof.
  unfold sha256.Sum256. rewrite flat_map_words_length, blocks_length;
    reflexivity.
Qed.

(** So is an HMAC-SHA-256 tag. *)
Lemma hmac_Sum_length key msg : length (hmac.Sum key msg) = 32%nat.
Proof. unfold hmac.Sum. apply Sum256_length. Qed.

Lemma pbkdf2_xorBytes_length x y :
  length (pbkdf2.xorBytes x y) = Nat.min (length x) (length y).
Proof.
  revert y; induction x as [|a x IH]; intros [|b y]; cbn [pbkdf2.xorBytes length];
    auto.
  rewrite IH. reflexivity.
Qed.

Lemma step_sized password tu : sized tu -> sized (pbkdf2.step password tu).
Proof.
  intros [Ht Hu]. unfold sized, pbkdf2.step; cbn [fst snd].
  rewrite pbkdf2_xorBytes_length, Ht, hmac_Sum_length. split; reflexivity.
Qed.

Lemma Z_iter_invariant {A} (Inv : A -> Prop) (f : A -> A) n x :
  (forall y, Inv y -> Inv (f y)) -> Inv x -> Inv (Z.iter n f x).
Proof.
  intros Hf Hx. destruct n; cbn [Z.iter]; try exact Hx.
  apply Pos.iter_invariant; assumption.
Qed.

Lemma F_length password salt iter i :
  length (pbkdf2.F password salt iter i) = 32%nat.
Proof.
  unfold pbkdf2.F.
  apply (@Z_iter_invariant _ sized (pbkdf2.step password)).
  - intros y. apply step_sized.
  - split; apply hmac_Sum_length.
Qed.

Lemma derive_length n password salt iter i :
  length (pbkdf2.derive n password salt iter i) = (32 * n)%nat.
Proof.
  revert i; induction n as [|n IH]; intros i; cbn [pbkdf2.derive].
  - reflexivity.
  - rewrite length_app, F_length, IH. lia.
Qed.

(** With the package's constants, [pbkdf2.Key] takes the success path
    whatever the password and the salt are: one block of 32 bytes. *)
Lemma Key_32 password salt iter :
  pbkdf2.Key password salt iter 32 =
  (pbkdf2.F (bytes_of_string password) salt iter 1, None).
Proof.
  unfold pbkdf2.Key.
  change (32 <=? 0) with false.
  change ((32 + sha256.Size - 1) / sha256.Size) with 1.
  change (0xffffffff <? 1) with false.
  cbv iota. change (Z.to_nat 1) with 1%nat. change (Z.to_nat 32) with 32%nat.
  cbn [pbkdf2.derive]. rewrite app_nil_r.
  rewrite <- (F_length (bytes_of_string password) salt iter 1) at 1.
  rewrite firstn_all. reflexivity.
Qed.

(** *** The loop of [pbkdf2.Key] computes the RFC's T_i *)

Lemma iter_step password salt i n :
  nat_rect (fun _ => (bytes * bytes)%type)
    (rfc8018.U password salt i 0, rfc8018.U password salt i 0)
    (fun _ => pbkdf2.step password) n
  = (rfc8018.T password salt i n, rfc8018.U password salt i n).
Proof.
  induction n as [|n IH]; cbn [nat_rect].
  - reflexivity.
  - rewrite IH. reflexivity.
Qed.

Lemma F_is_T password salt iter i :
  1 <= iter ->
  pbkdf2.F password salt iter i =
  rfc8018.T password salt i (Z.to_nat iter - 1).
Proof.
  intros Hi. unfold pbkdf2.F.
  rewrite iter_nat_of_Z by lia.
  change (hmac.Sum password (salt ++ sha256.BEPutUint32 i))
    with (rfc8018.U password salt i 0).
  rewrite iter_step. cbn [fst]. f_equal. lia.
Qed.

(** [pbkdf2.Key] with a 32-byte output is the RFC's PBKDF2. *)
Lemma Key_is_PBKDF2 password salt iter :
  1 <= iter ->
  pbkdf2.Key password salt iter 32 =
  (rfc8018.PBKDF2 (bytes_of_string password) salt iter 32, None).
Proof.
  intros Hi. rewrite Key_32. f_equal.
  unfold rfc8018.PBKDF2.
  change (Z.to_nat ((32 + 31) / 32)) with 1%nat.
  change (Z.to_nat 32) with 32%nat.
  cbn [seq flat_map]. rewrite app_nil_r.
  change (Z.of_nat 1) with 1.
  rewrite <- F_is_T by exact Hi.
  rewrite <- (F_length (bytes_of_string password) salt iter 1) at 1.
  rewrite firstn_all. reflexivity.
Qed.

End kdf_facts.

(** ** The library models on published test vectors *)

Module vectors.

(** FIPS-197 Appendix C.1, C.2 and C.3. *)
Example aes128_fips197 :
  aes.NewCipher fips_key128 = inl (aes.expandKey fips_key128) /\
  aes.encryptBlock (aes.expandKey fips_key128) fips_plain = fips_cipher128 /\
  aes.decryptBlock (aes.expandKey fips_key128) fips_cipher128 = fips_plain.
Proof. vm_compute. repeat split. Qed.

Example aes192_fips197 :
  aes.encryptBlock (aes.expandKey fips_key192) fips_plain = fips_cipher192 /\
  aes.decryptBlock (aes.expandKey fips_key192) fips_cipher192 = fips_plain.
Proof. vm_compute. repeat split. Qed.

Example aes256_fips197 :
  aes.encryptBlock (aes.expandKey fips_key256) fips_plain = fips_cipher256 /\
  aes.decryptBlock (aes.expandKey fips_key256) fips_cipher256 = fips_plain.
Proof. vm_compute. repeat split. Qed.

(** FIPS 180-4 examples: one block and two blocks. *)
Example sha256_abc :
  sha256.Sum256 (bytes_of_string "abc") =
  unhex "ba7816bf8f01cfea414140de5dae2223b00361a396177a9cb410ff61f20015ad".
Proof. vm_compute. reflexivity. Qed.

Example sha256_two_blocks :
  sha256.Sum256
    (bytes_of_string "abcdbcdecdefdefgefghfghighijhijkijkljklmklmnlmnomnopnopq") =
  unhex "248d6a61d20638b8e5c026930c3e6039a33ce45964ff2167f6ecedd419db06c1".
Proof. vm_compute. reflexivity. Qed.

(** RFC 4231, test case 2. *)
Example hmac_rfc4231_2 :
  hmac.Sum (bytes_of_string "Jefe")
           (bytes_of_string "what do ya want for nothing?") =
  unhex "5bdcc146bf60754e6a042426089575c75a003f089d2739839dec58b964ec3843".
Proof. vm_compute. reflexivity. Qed.

(** PBKDF2-HMAC-SHA256, password "password", salt "salt", c = 2, dkLen = 32. *)
Example pbkdf2_c2 :
  pbkdf2.Key "password" (bytes_of_string "salt") 2 32 =
  (unhex "ae4d0c95af6b46d32d0adff928f06dd02a303f8ef3c251dfd6e2d85a95474c43",
   None).
Proof. vm_compute. reflexivity. Qed.

End vectors.

(** ** The claims *)

Module claims.
Import aes aes_facts aes_state pkg_facts tamper kdf_facts.

(** *** crypto/rand *)


(** C1 (defect).  The round trip is not the identity on a plaintext of 17
    bytes: [EncryptAES256] enciphers the first 16 bytes and leaves the 17th
    byte of its output zero, so [DecryptAES256] returns the first block
    followed by a zero byte instead of the plaintext. *)
Theorem roundtrip_fails_on_17_bytes :
  let m := fips_plain ++ [0x01] in
  exists ct p,
    EncryptAES256 m fips_key256 (make 16) dry = (Returned (ct, None), dry) /\
    DecryptAES256 ct fips_key256 (make 16) dry = (Returned (p, None), dry) /\
    p = fips_plain ++ [0x00] /\ p <> m.
Proof.
  exists (fips_cipher256 ++ [0x00]), (fips_plain ++ [0x00]).
  split; [vm_compute; reflexivity|].
  split; [vm_compute; reflexivity|].
  split; [reflexivity|]. vm_compute. discriminate.
Qed.

(** C2 (counterexample).  Bit 0 of byte 0 of the ciphertext of the FIPS-197
    example block is flipped: [DecryptAES256] does not refuse the input. *)
Lemma tamper_undetected_example :
  ~ tamper_detected fips_plain fips_key256 (make 16) 0 0 dry.
Proof.
  intros (c & He & e & w & Hd).
  vm_compute in He. injection He as <-.
  vm_compute in Hd. discriminate Hd.
Qed.

(** C2 (amended).  [DecryptAES256] checks no authentication tag.  For every
    plaintext of at least one block, every 32-byte key and every IV, after
    any single bit of the ciphertext is flipped, [DecryptAES256] returns
    without error an output as long as the plaintext; when the flipped bit
    lies in the first block, the first block of that output differs from the
    first block of the plaintext. *)
Theorem tamper_never_detected (m k v : bytes) (w : World) (i : nat) (j : Z) :
  is_bytes m -> 16 <= len m -> len k = 32 ->
  (i < length m)%nat -> 0 <= j < 8 ->
  exists ct p,
    EncryptAES256 m k v w = (Returned (ct, None), w) /\
    DecryptAES256 (flipBit ct i j) k v w = (Returned (p, None), w) /\
    len p = len m /\
    ((i < 16)%nat -> firstn 16 p <> firstn 16 m).
Proof.
  intros Hb Hl Hk Hi Hj.
  assert (Hc : NewCipher k = inl (expandKey k))
    by (apply NewCipher_accepts; auto).
  destruct (@decrypt_flipped m k v w _ i j Hc Hb Hl Hi Hj)
    as (ct & p & He & Hd & Hp & Hin & _).
  exists ct, p. auto.
Qed.

Lemma tamper_never_detected_witness :
  exists ct p,
    EncryptAES256 fips_plain fips_key256 (make 16) dry
      = (Returned (ct, None), dry) /\
    DecryptAES256 (flipBit ct 0 0) fips_key256 (make 16) dry
      = (Returned (p, None), dry) /\
    len p = len fips_plain /\
    ((0 < 16)%nat -> firstn 16 p <> firstn 16 fips_plain).
Proof.
  apply (@tamper_never_detected fips_plain fips_key256 (make 16) dry 0%nat 0).
  - apply is_bytes_dec. vm_compute. reflexivity.
  - vm_compute. discriminate.
  - vm_compute. reflexivity.
  - vm_compute. lia.
  - lia.
Defined.

(** C3 (defect).  An empty plaintext makes [EncryptAES256] panic, and of a
    two-block plaintext only the first block is enciphered: the second block
    of the output is zero whatever the second block of the plaintext is. *)
Theorem encrypt_only_first_block :
  EncryptAES256 [] fips_key256 (make 16) dry
    = (Panicked "crypto/aes: input not full block", dry) /\
  EncryptAES256 (fips_plain ++ fips_plain) fips_key256 (make 16) dry
    = (Returned (fips_cipher256 ++ make 16, None), dry) /\
  EncryptAES256 (fips_plain ++ make 16) fips_key256 (make 16) dry
    = (Returned (fips_cipher256 ++ make 16, None), dry).
Proof. vm_compute. repeat split. Qed.

Lemma EncryptAES256_iv_irrelevant data key iv1 iv2 w :
  EncryptAES256 data key iv1 w = EncryptAES256 data key iv2 w.
Proof. reflexivity. Qed.

Lemma DecryptAES256_iv_irrelevant data key iv1 iv2 w :
  DecryptAES256 data key iv1 w = DecryptAES256 data key iv2 w.
Proof. reflexivity. Qed.

(** C4 (defect).  The IV is not an input of the transformation: the same
    plaintext under the same key gives the same ciphertext for any two IVs,
    for instance for the all-zero and the all-ones IV. *)
Theorem iv_is_ignored :
  (forall data key iv1 iv2 w,
     EncryptAES256 data key iv1 w = EncryptAES256 data key iv2 w) /\
  make 16 <> repeat 0xff 16 /\
  EncryptAES256 fips_plain fips_key256 (make 16) dry
    = (Returned (fips_cipher256, None), dry) /\
  EncryptAES256 fips_plain fips_key256 (repeat 0xff 16) dry
    = (Returned (fips_cipher256, None), dry).
Proof.
  split; [intros; apply EncryptAES256_iv_irrelevant|].
  split; [vm_compute; discriminate|].
  vm_compute. split; reflexivity.
Qed.

(** C5 (defect).  Keys of 16 and of 24 bytes are accepted: the functions
    then compute AES-128 and AES-192 (FIPS-197 Appendix C.1 and C.2). *)
Theorem short_keys_accepted :
  len fips_key128 = 16 /\ len fips_key192 = 24 /\
  EncryptAES256 fips_plain fips_key128 (make 16) dry
    = (Returned (fips_cipher128, None), dry) /\
  DecryptAES256 fips_cipher128 fips_key128 (make 16) dry
    = (Returned (fips_plain, None), dry) /\
  EncryptAES256 fips_plain fips_key192 (make 16) dry
    = (Returned (fips_cipher192, None), dry) /\
  DecryptAES256 fips_cipher192 fips_key192 (make 16) dry
    = (Returned (fips_plain, None), dry).
Proof. vm_compute. repeat split. Qed.

(** C6 (defect).  The length of the IV is not checked: an empty IV and an
    IV of 17 bytes are accepted by both functions. *)
Theorem iv_length_unchecked :
  EncryptAES256 fips_plain fips_key256 [] dry
    = (Returned (fips_cipher256, None), dry) /\
  DecryptAES256 fips_cipher256 fips_key256 [] dry
    = (Returned (fips_plain, None), dry) /\
  EncryptAES256 fips_plain fips_key256 (make 17) dry
    = (Returned (fips_cipher256, None), dry) /\
  DecryptAES256 fips_cipher256 fips_key256 (make 17) dry
    = (Returned (fips_plain, None), dry).
Proof. vm_compute. repeat split. Qed.

(** *** Key derivation *)

Lemma DeriveKey_returns password salt w :
  DeriveKey password salt w =
  (Returned (pbkdf2.F (bytes_of_string password) salt Iterations 1, None), w).
Proof. unfold DeriveKey, ret, KeySize. rewrite Key_32. reflexivity. Qed.

Lemma DeriveKey_is_PBKDF2 password salt w :
  DeriveKey password salt w =
  (Returned (rfc8018.PBKDF2 (bytes_of_string password) salt 100000 32, None), w).
Proof.
  unfold DeriveKey, ret, KeySize, Iterations.
  rewrite Key_is_PBKDF2 by lia. reflexivity.
Qed.

Lemma len_F password salt iter i : len (pbkdf2.F password salt iter i) = 32.
Proof. unfold len. rewrite F_length. reflexivity. Qed.

Lemma PBKDF2_length password salt iter :
  1 <= iter -> len (rfc8018.PBKDF2 (bytes_of_string password) salt iter 32) = 32.
Proof.
  intros Hi. pose proof (Key_is_PBKDF2 password salt Hi) as H.
  rewrite Key_32 in H. apply (f_equal fst) in H. cbn [fst] in H.
  rewrite <- H. apply len_F.
Qed.

(** C7.  [DeriveKey] is deterministic: whatever the state of the entropy
    source, it returns the same 32-byte key and a nil error, it leaves the
    entropy source untouched, and two calls in a row return the same. *)
Theorem DeriveKey_deterministic (password : string) (salt : bytes) (w1 w2 : World) :
  exists key,
    len key = 32 /\
    DeriveKey password salt w1 = (Returned (key, None), w1) /\
    DeriveKey password salt w2 = (Returned (key, None), w2) /\
    DeriveKey_twice password salt w1
      = (Returned ((key, None), (key, None)), w1).
Proof.
  exists (pbkdf2.F (bytes_of_string password) salt Iterations 1).
  split; [apply len_F|].
  split; [apply DeriveKey_returns|].
  split; [apply DeriveKey_returns|].
  unfold DeriveKey_twice, gbind. rewrite !DeriveKey_returns. reflexivity.
Qed.

(** By contrast, [GenerateSalt] does depend on the entropy source. *)
Lemma GenerateSalt_not_deterministic :
  exists s1 s2,
    GenerateSalt_twice wet = (Returned ((s1, None), (s2, None)), dry) /\
    s1 <> s2.
Proof. do 2 eexists. split; [vm_compute; reflexivity|discriminate]. Qed.

(** C8 (counterexample).  The salt "salt" has 4 bytes, not 32, and
    [DeriveKey] does not reject it. *)
Lemma short_salt_accepted :
  len (bytes_of_string "salt") <> SaltSize /\
  ~ rejected (DeriveKey "knownpassword" (bytes_of_string "salt") dry).
Proof.
  split; [vm_compute; discriminate|].
  intros (e & w & H). rewrite DeriveKey_returns in H.
  apply (f_equal (fun r => snd (result_of (fst r)))) in H.
  cbn [fst snd result_of] in H. discriminate H.
Qed.

(** C8 (amended).  [DeriveKey] does not check the length of the salt: for
    every password and every salt whose length is not the configured salt
    size, the call succeeds and returns a key of [KeySize] bytes and a nil
    error. *)
Theorem DeriveKey_accepts_any_salt (password : string) (salt : bytes) (w : World) :
  len salt <> SaltSize ->
  exists key,
    DeriveKey password salt w = (Returned (key, None), w) /\ len key = KeySize.
Proof.
  intros _. eexists. split; [apply DeriveKey_returns|apply len_F].
Qed.

Lemma DeriveKey_accepts_any_salt_witness :
  len (bytes_of_string "salt") <> SaltSize /\
  exists key,
    DeriveKey "knownpassword" (bytes_of_string "salt") dry
      = (Returned (key, None), dry) /\
    len key = KeySize.
Proof.
  assert (H : len (bytes_of_string "salt") <> SaltSize)
    by (vm_compute; discriminate).
  split; [exact H|].
  apply (@DeriveKey_accepts_any_salt "knownpassword" (bytes_of_string "salt") dry H).
Defined.



End claims.

(** ** Further properties of the package *)

Module extras.
Import aes aes_facts aes_state pkg_facts tamper kdf_facts claims.

(** *** Random values *)

Lemma firstn_repeat {A} (x : A) (k n : nat) :
  firstn k (repeat x n) = repeat x (Nat.min k n).
Proof.
  revert n; induction k as [|k IH]; intros [|n]; simpl; auto.
  rewrite IH. reflexivity.
Qed.

(** Reading into a fresh buffer of [n] zero bytes: the buffer receives the
    next [n] bytes of the source, or all that is left followed by zeros. *)
Lemma Read_make (n : nat) (w : World) :
  rand.Read (repeat 0 n) w =
  (Returned (firstn n (entropy w ++ repeat 0 n),
             Z.of_nat (Nat.min n (length (entropy w))),
             if len (entropy w) <? Z.of_nat n then Some ErrEntropy else None),
   {| entropy := skipn n (entropy w) |}).
Proof.
  unfold rand.Read. rewrite repeat_length.
  set (e := entropy w). unfold len.
  rewrite length_firstn, repeat_length, skipn_repeat, firstn_app, firstn_repeat.
  replace (Nat.min (n - length e) n) with (n - Nat.min n (length e))%nat by lia.
  destruct (Nat.le_gt_cases n (length e)) as [H|H].
  - rewrite Nat.min_l by exact H.
    destruct (Z.ltb_spec (Z.of_nat n) (Z.of_nat n)); [lia|].
    destruct (Z.ltb_spec (Z.of_nat (length e)) (Z.of_nat n)); [lia|].
    reflexivity.
  - rewrite Nat.min_r by lia.
    destruct (Z.ltb_spec (Z.of_nat (length e)) (Z.of_nat n)); [|lia].
    reflexivity.
Qed.

Lemma firstn_padded_length {A} (x : A) (n : nat) (e : list A) :
  length (firstn n (e ++ repeat x n)) = n.
Proof. rewrite length_firstn, length_app, repeat_length. lia. Qed.

(** X1.  [GenerateSalt] in full: the salt is the next 32 bytes of the
    entropy source, or, when fewer are left, what is left followed by zero
    bytes together with a non-nil error; it always has 32 bytes, and the
    source is advanced past what was read. *)
Theorem GenerateSalt_spec (w : World) :
  let salt := firstn 32 (entropy w ++ repeat 0 32) in
  GenerateSalt w =
  (Returned (salt, if len (entropy w) <? 32 then Some ErrEntropy else None),
   {| entropy := skipn 32 (entropy w) |}) /\
  len salt = SaltSize.
Proof.
  intros salt. split.
  - unfold GenerateSalt, gbind.
    change (make SaltSize) with (repeat 0 32). rewrite Read_make. reflexivity.
  - unfold salt, len. rewrite firstn_padded_length. reflexivity.
Qed.


Lemma ltb_len_false (e : bytes) (n : Z) :
  n <= len e -> (len e <? n) = false.
Proof. intros H. apply Z.ltb_ge. exact H. Qed.

Lemma firstn_app_enough {A} (n : nat) (e z : list A) :
  (n <= length e)%nat -> firstn n (e ++ z) = firstn n e.
Proof.
  intros H. rewrite firstn_app.
  replace (n - length e)%nat with 0%nat by lia.
  rewrite firstn_O, app_nil_r. reflexivity.
Qed.

(** X3.  Two calls of [GenerateSalt] in a row, with at least 64 bytes of
    entropy left: both succeed, the first salt is bytes 0..31 and the second
    bytes 32..63 of the source, so the two salts differ exactly when these
    two stretches of the source differ. *)
Theorem GenerateSalt_twice_spec (w : World) :
  (64 <= length (entropy w))%nat ->
  let s1 := firstn 32 (entropy w) in
  let s2 := firstn 32 (skipn 32 (entropy w)) in
  GenerateSalt_twice w =
  (Returned ((s1, None), (s2, None)), {| entropy := skipn 64 (entropy w) |}).
Proof.
  intros H s1 s2. unfold GenerateSalt_twice, gbind.
  destruct (GenerateSalt_spec w) as [-> _].
  destruct (GenerateSalt_spec {| entropy := skipn 32 (entropy w) |}) as [-> _].
  cbn [entropy].
  rewrite (@ltb_len_false (entropy w) 32) by (unfold len; lia).
  rewrite (@ltb_len_false (skipn 32 (entropy w)) 32)
    by (unfold len; rewrite length_skipn; lia).
  rewrite !firstn_app_enough by (rewrite ?length_skipn; lia).
  rewrite skipn_skipn. reflexivity.
Qed.

Lemma GenerateSalt_twice_spec_witness :
  GenerateSalt_twice wet =
  (Returned ((firstn 32 (entropy wet), None),
             (firstn 32 (skipn 32 (entropy wet)), None)),
   {| entropy := skipn 64 (entropy wet) |}).
Proof.
  apply (@GenerateSalt_twice_spec wet). vm_compute. lia.
Defined.

(** *** The cipher functions *)

Lemma accepted_NewCipher key : accepted key -> NewCipher key = inl (expandKey key).
Proof. apply NewCipher_accepts. Qed.

Lemma not_accepted key :
  ~ accepted key -> len key <> 16 /\ len key <> 24 /\ len key <> 32.
Proof. unfold accepted. intros H. repeat split; intros E; apply H; auto. Qed.

(** X4.  The key is checked before anything else: with a key that is not
    16, 24 or 32 bytes long, [EncryptAES256] and [DecryptAES256] return a
    nil slice and [KeySizeError] of the key's length, whatever the data is
    (also when the data is too short for a block), and do not panic. *)
Theorem bad_key_rejected (data key iv : bytes) (w : World) :
  ~ accepted key ->
  EncryptAES256 data key iv w
    = (Returned ([], Some (KeySizeError (len key))), w) /\
  DecryptAES256 data key iv w
    = (Returned ([], Some (KeySizeError (len key))), w).
Proof.
  intros H. destruct (not_accepted H) as (H1 & H2 & H3).
  split; [apply EncryptAES256_rejects|apply DecryptAES256_rejects]; assumption.
Qed.

Lemma bad_key_rejected_witness :
  EncryptAES256 [] (make 31) [] dry
    = (Returned ([], Some (KeySizeError (len (make 31)))), dry) /\
  DecryptAES256 [] (make 31) [] dry
    = (Returned ([], Some (KeySizeError (len (make 31)))), dry).
Proof.
  apply (@bad_key_rejected [] (make 31) [] dry).
  unfold accepted. vm_compute. intros [H | [H | H]]; discriminate H.
Defined.

(** X5.  With an accepted key, data shorter than one block (16 bytes),
    the empty slice included, makes [EncryptAES256] and [DecryptAES256]
    panic instead of returning an error. *)
Theorem short_data_panics (data key iv : bytes) (w : World) :
  accepted key -> len data < 16 ->
  EncryptAES256 data key iv w
    = (Panicked "crypto/aes: input not full block", w) /\
  DecryptAES256 data key iv w
    = (Panicked "crypto/aes: input not full block", w).
Proof.
  intros Hk Hd. apply accepted_NewCipher in Hk.
  split; [eapply EncryptAES256_short|eapply DecryptAES256_short]; eassumption.
Qed.

Lemma short_data_panics_witness :
  EncryptAES256 [1; 2; 3] fips_key256 [] dry
    = (Panicked "crypto/aes: input not full block", dry) /\
  DecryptAES256 [1; 2; 3] fips_key256 [] dry
    = (Panicked "crypto/aes: input not full block", dry).
Proof.
  apply (@short_data_panics [1; 2; 3] fips_key256 [] dry).
  - unfold accepted. vm_compute. auto.
  - vm_compute. reflexivity.
Defined.

Lemma skipn_app_block {A} (x y : list A) :
  length x = 16%nat -> skipn 16 (x ++ y) = y.
Proof.
  intros H. rewrite skipn_app, (skipn_all2 x) by lia.
  rewrite H, Nat.sub_diag. reflexivity.
Qed.

(** X6.  With an accepted key and at least 16 bytes of data,
    [EncryptAES256] returns a nil error and an output as long as the data,
    whose bytes after the first 16 are all zero. *)
Theorem EncryptAES256_shape (data key iv : bytes) (w : World) :
  accepted key -> is_bytes data -> 16 <= len data ->
  exists ct,
    EncryptAES256 data key iv w = (Returned (ct, None), w) /\
    len ct = len data /\ is_bytes ct /\
    skipn 16 ct = repeat 0 (length data - 16).
Proof.
  intros Hk Hb Hl. apply accepted_NewCipher in Hk.
  pose proof (NewCipher_wf _ Hk) as Hc.
  pose proof (encryptBlock_block Hc (firstn_block Hb Hl)) as [He Hbe].
  eexists. split; [eapply EncryptAES256_long; eassumption|].
  split; [|split].
  - unfold len in *. rewrite length_app, He, repeat_length. lia.
  - apply is_bytes_app; [exact Hbe|apply is_bytes_repeat].
  - apply skipn_app_block, He.
Qed.

Lemma EncryptAES256_shape_witness :
  exists ct,
    EncryptAES256 (fips_plain ++ [7; 7]) fips_key256 [] dry
      = (Returned (ct, None), dry) /\
    len ct = len (fips_plain ++ [7; 7]) /\ is_bytes ct /\
    skipn 16 ct = repeat 0 (length (fips_plain ++ [7; 7]) - 16).
Proof.
  apply (@EncryptAES256_shape (fips_plain ++ [7; 7]) fips_key256 [] dry).
  - unfold accepted. vm_compute. auto.
  - apply is_bytes_dec. vm_compute. reflexivity.
  - vm_compute. discriminate.
Defined.

(** X7.  Likewise [DecryptAES256]: a nil error and an output as long as
    the input, whose bytes after the first 16 are all zero. *)
Theorem DecryptAES256_shape (data key iv : bytes) (w : World) :
  accepted key -> is_bytes data -> 16 <= len data ->
  exists p,
    DecryptAES256 data key iv w = (Returned (p, None), w) /\
    len p = len data /\ is_bytes p /\
    skipn 16 p = repeat 0 (length data - 16).
Proof.
  intros Hk Hb Hl. apply accepted_NewCipher in Hk.
  pose proof (NewCipher_wf _ Hk) as Hc.
  pose proof (decryptBlock_block Hc (firstn_block Hb Hl)) as [He Hbe].
  eexists. split; [eapply DecryptAES256_long; eassumption|].
  split; [|split].
  - unfold len in *. rewrite length_app, He, repeat_length. lia.
  - apply is_bytes_app; [exact Hbe|apply is_bytes_repeat].
  - apply skipn_app_block, He.
Qed.

Lemma DecryptAES256_shape_witness :
  exists p,
    DecryptAES256 (fips_cipher256 ++ [7; 7]) fips_key256 [] dry
      = (Returned (p, None), dry) /\
    len p = len (fips_cipher256 ++ [7; 7]) /\ is_bytes p /\
    skipn 16 p = repeat 0 (length (fips_cipher256 ++ [7; 7]) - 16).
Proof.
  apply (@DecryptAES256_shape (fips_cipher256 ++ [7; 7]) fips_key256 [] dry).
  - unfold accepted. vm_compute. auto.
  - apply is_bytes_dec. vm_compute. reflexivity.
  - vm_compute. discriminate.
Defined.

(** X8.  On a plaintext of exactly one block the round trip is the
    identity, for every accepted key: decrypting what [EncryptAES256]
    returned gives the plaintext back. *)
Theorem one_block_roundtrip (m key iv : bytes) (w : World) :
  accepted key -> is_bytes m -> len m = 16 ->
  exists ct,
    EncryptAES256 m key iv w = (Returned (ct, None), w) /\
    DecryptAES256 ct key iv w = (Returned (m, None), w).
Proof.
  intros Hk Hb Hl. apply accepted_NewCipher in Hk.
  eapply roundtrip_one_block; eassumption.
Qed.

Lemma one_block_roundtrip_witness :
  exists ct,
    EncryptAES256 fips_plain fips_key192 (make 16) dry
      = (Returned (ct, None), dry) /\
    DecryptAES256 ct fips_key192 (make 16) dry
      = (Returned (fips_plain, None), dry).
Proof.
  apply (@one_block_roundtrip fips_plain fips_key192 (make 16) dry).
  - unfold accepted. vm_compute. auto.
  - apply is_bytes_dec. vm_compute. reflexivity.
  - vm_compute. reflexivity.
Defined.

(** X9.  On a plaintext of at least one block the round trip returns the
    first block followed by zeros; it gives the plaintext back exactly when
    every byte of the plaintext after the first 16 is zero. *)
Theorem roundtrip_iff_zero_tail (m key iv : bytes) (w : World) :
  accepted key -> is_bytes m -> 16 <= len m ->
  exists ct p,
    EncryptAES256 m key iv w = (Returned (ct, None), w) /\
    DecryptAES256 ct key iv w = (Returned (p, None), w) /\
    p = firstn 16 m ++ repeat 0 (length m - 16) /\
    (p = m <-> skipn 16 m = repeat 0 (length m - 16)).
Proof.
  intros Hk Hb Hl. apply accepted_NewCipher in Hk.
  destruct (@roundtrip_long m key iv w _ Hk Hb Hl) as (ct & He & Hd).
  exists ct, (firstn 16 m ++ repeat 0 (length m - 16)).
  split; [exact He|]. split; [exact Hd|]. split; [reflexivity|].
  split.
  - intros H. apply (f_equal (skipn 16)) in H.
    rewrite skipn_app_block in H by apply (firstn_block Hb Hl).
    symmetry. exact H.
  - intros Hz. rewrite <- Hz. apply firstn_skipn.
Qed.

Lemma roundtrip_iff_zero_tail_witness :
  exists ct p,
    EncryptAES256 (fips_plain ++ [0; 9]) fips_key256 [] dry
      = (Returned (ct, None), dry) /\
    DecryptAES256 ct fips_key256 [] dry = (Returned (p, None), dry) /\
    p = firstn 16 (fips_plain ++ [0; 9])
        ++ repeat 0 (length (fips_plain ++ [0; 9]) - 16) /\
    (p = fips_plain ++ [0; 9] <->
     skipn 16 (fips_plain ++ [0; 9])
     = repeat 0 (length (fips_plain ++ [0; 9]) - 16)).
Proof.
  apply (@roundtrip_iff_zero_tail (fips_plain ++ [0; 9]) fips_key256 [] dry).
  - unfold accepted. vm_compute. auto.
  - apply is_bytes_dec. vm_compute. reflexivity.
  - vm_compute. discriminate.
Defined.

(** X10.  The round trip in the other order: on one block of input,
    encrypting what [DecryptAES256] returned gives the input back. *)
Theorem one_block_decrypt_encrypt (c key iv : bytes) (w : World) :
  accepted key -> is_bytes c -> len c = 16 ->
  exists p,
    DecryptAES256 c key iv w = (Returned (p, None), w) /\
    EncryptAES256 p key iv w = (Returned (c, None), w).
Proof.
  intros Hk Hb Hl. apply accepted_NewCipher in Hk.
  pose proof (NewCipher_wf _ Hk) as Hc.
  assert (Hn : length c = 16%nat) by (unfold len in Hl; lia).
  assert (Hblk : is_block c) by (split; assumption).
  pose proof (decryptBlock_block Hc Hblk) as [Hd Hdb].
  exists (decryptBlock (expandKey key) c). split.
  - rewrite (@DecryptAES256_long c key iv w _ Hk) by lia.
    rewrite Hn, Nat.sub_diag. cbn [repeat]. rewrite app_nil_r.
    rewrite <- Hn at 1. rewrite firstn_all. reflexivity.
  - rewrite (@EncryptAES256_long _ key iv w _ Hk) by (unfold len; lia).
    rewrite Hd, Nat.sub_diag. cbn [repeat]. rewrite app_nil_r.
    rewrite <- Hd at 1. rewrite firstn_all.
    rewrite encryptBlock_decryptBlock by assumption. reflexivity.
Qed.

Lemma one_block_decrypt_encrypt_witness :
  exists p,
    DecryptAES256 fips_plain fips_key128 [] dry = (Returned (p, None), dry) /\
    EncryptAES256 p fips_key128 [] dry = (Returned (fips_plain, None), dry).
Proof.
  apply (@one_block_decrypt_encrypt fips_plain fips_key128 [] dry).
  - unfold accepted. vm_compute. auto.
  - apply is_bytes_dec. vm_compute. reflexivity.
  - vm_compute. reflexivity.
Defined.

Lemma app_inj_block {A} (x x' y y' : list A) :
  length x = length x' -> x ++ y = x' ++ y' -> x = x'.
Proof.
  revert x'; induction x as [|a x IH]; intros [|a' x'] Hl H; simpl in *;
    try discriminate; [reflexivity|].
  injection H as -> H. f_equal. apply IH; [lia|exact H].
Qed.

(** X11.  Two plaintexts of the same length (at least 16 bytes) are
    encrypted to the same ciphertext exactly when their first blocks are
    equal: distinct first blocks never collide, and nothing after the first
    block reaches the ciphertext. *)
Theorem EncryptAES256_collision (d1 d2 key iv : bytes) (w : World) :
  accepted key -> is_bytes d1 -> is_bytes d2 ->
  16 <= len d1 -> len d1 = len d2 ->
  EncryptAES256 d1 key iv w = EncryptAES256 d2 key iv w <->
  firstn 16 d1 = firstn 16 d2.
Proof.
  intros Hk Hb1 Hb2 Hl Heq. apply accepted_NewCipher in Hk.
  pose proof (NewCipher_wf _ Hk) as Hc.
  assert (Hl2 : 16 <= len d2) by lia.
  pose proof (firstn_block Hb1 Hl) as B1.
  pose proof (firstn_block Hb2 Hl2) as B2.
  rewrite (@EncryptAES256_long d1 key iv w _ Hk Hl).
  rewrite (@EncryptAES256_long d2 key iv w _ Hk Hl2).
  split.
  - intros H. apply (f_equal (fun r => fst (result_of (fst r)))) in H.
    cbn [fst result_of] in H. apply app_inj_block in H.
    + apply (encryptBlock_inj Hc B1 B2 H).
    + destruct (encryptBlock_block Hc B1) as [-> _].
      destruct (encryptBlock_block Hc B2) as [-> _]. reflexivity.
  - intros ->. unfold len in Heq.
    replace (length d1) with (length d2) by lia. reflexivity.
Qed.

Lemma EncryptAES256_collision_witness :
  EncryptAES256 (fips_plain ++ [1]) fips_key256 [] dry
  = EncryptAES256 (fips_plain ++ [2]) fips_key256 [] dry <->
  firstn 16 (fips_plain ++ [1]) = firstn 16 (fips_plain ++ [2]).
Proof.
  apply (@EncryptAES256_collision (fips_plain ++ [1]) (fips_plain ++ [2])
           fips_key256 [] dry).
  - unfold accepted. vm_compute. auto.
  - apply is_bytes_dec. vm_compute. reflexivity.
  - apply is_bytes_dec. vm_compute. reflexivity.
  - vm_compute. discriminate.
  - vm_compute. reflexivity.
Defined.

(** X12.  Likewise for [DecryptAES256]: two inputs of the same length (at
    least 16 bytes) are decrypted to the same output exactly when their
    first blocks are equal. *)
Theorem DecryptAES256_collision (c1 c2 key iv : bytes) (w : World) :
  accepted key -> is_bytes c1 -> is_bytes c2 ->
  16 <= len c1 -> len c1 = len c2 ->
  DecryptAES256 c1 key iv w = DecryptAES256 c2 key iv w <->
  firstn 16 c1 = firstn 16 c2.
Proof.
  intros Hk Hb1 Hb2 Hl Heq. apply accepted_NewCipher in Hk.
  pose proof (NewCipher_wf _ Hk) as Hc.
  assert (Hl2 : 16 <= len c2) by lia.
  pose proof (firstn_block Hb1 Hl) as B1.
  pose proof (firstn_block Hb2 Hl2) as B2.
  rewrite (@DecryptAES256_long c1 key iv w _ Hk Hl).
  rewrite (@DecryptAES256_long c2 key iv w _ Hk Hl2).
  split.
  - intros H. apply (f_equal (fun r => fst (result_of (fst r)))) in H.
    cbn [fst result_of] in H. apply app_inj_block in H.
    + apply (decryptBlock_inj Hc B1 B2 H).
    + destruct (decryptBlock_block Hc B1) as [-> _].
      destruct (decryptBlock_block Hc B2) as [-> _]. reflexivity.
  - intros ->. unfold len in Heq.
    replace (length c1) with (length c2) by lia. reflexivity.
Qed.

Lemma DecryptAES256_collision_witness :
  DecryptAES256 (fips_cipher256 ++ [1]) fips_key256 [] dry
  = DecryptAES256 (fips_cipher256 ++ [2]) fips_key256 [] dry <->
  firstn 16 (fips_cipher256 ++ [1]) = firstn 16 (fips_cipher256 ++ [2]).
Proof.
  apply (@DecryptAES256_collision (fips_cipher256 ++ [1]) (fips_cipher256 ++ [2])
           fips_key256 [] dry).
  - unfold accepted. vm_compute. auto.
  - apply is_bytes_dec. vm_compute. reflexivity.
  - apply is_bytes_dec. vm_compute. reflexivity.
  - vm_compute. discriminate.
  - vm_compute. reflexivity.
Defined.

(** *** Key derivation *)

(** X13.  For every password and salt, [DeriveKey] returns, with a nil
    error, PBKDF2 of RFC 8018 with HMAC-SHA-256 as the PRF, 100000
    iterations and a derived-key length of 32 bytes: the loop of
    [pbkdf2.Key], which accumulates [T ^= U] in place, computes the RFC's
    U_1 xor ... xor U_c. *)
Theorem DeriveKey_is_RFC8018 (password : string) (salt : bytes) (w : World) :
  DeriveKey password salt w =
  (Returned (rfc8018.PBKDF2 (bytes_of_string password) salt Iterations KeySize,
             None), w) /\
  len (rfc8018.PBKDF2 (bytes_of_string password) salt Iterations KeySize)
  = KeySize.
Proof.
  split.
  - apply DeriveKey_is_PBKDF2.
  - apply PBKDF2_length. unfold Iterations. lia.
Qed.

Lemma sha256_BEPutUint32_bytes w : is_bytes (sha256.BEPutUint32 w).
Proof.
  unfold sha256.BEPutUint32.
  repeat (apply Forall_cons; [apply is_byte_land|]). constructor.
Qed.

Lemma Sum256_bytes data : is_bytes (sha256.Sum256 data).
Proof.
  unfold sha256.Sum256.
  induction (sha256.blocks _ _ _) as [|x ws IH]; cbn [flat_map].
  - constructor.
  - apply is_bytes_app; [apply sha256_BEPutUint32_bytes|exact IH].
Qed.

Lemma bytes_of_string_of_bytes b :
  is_bytes b -> bytes_of_string (string_of_bytes b) = b.
Proof.
  induction 1 as [|x b Hx Hb IH]; cbn [string_of_bytes bytes_of_string].
  - reflexivity.
  - rewrite IH, N_ascii_embedding; [rewrite Z2N.id by apply Hx; reflexivity|].
    unfold is_byte in Hx. lia.
Qed.

Lemma bytes_of_string_app s t :
  bytes_of_string (s ++ t) = bytes_of_string s ++ bytes_of_string t.
Proof.
  induction s as [|c s IH]; cbn [append bytes_of_string app].
  - reflexivity.
  - rewrite IH. reflexivity.
Qed.

(** HMAC hashes a key longer than the block size before using it. *)
Lemma blockKey_long key :
  sha256.BlockSize < len key ->
  hmac.blockKey (sha256.Sum256 key) = hmac.blockKey key.
Proof.
  intros H. unfold hmac.blockKey.
  apply Z.ltb_lt in H. rewrite H.
  assert (Hs : len (sha256.Sum256 key) = 32)
    by (unfold len; rewrite Sum256_length; reflexivity).
  rewrite Hs. change (sha256.BlockSize <? 32) with false. cbv iota.
  rewrite Hs. reflexivity.
Qed.

(** HMAC pads a key shorter than the block size with zero bytes. *)
Lemma blockKey_zero key :
  len key < sha256.BlockSize ->
  hmac.blockKey (key ++ [0]) = hmac.blockKey key.
Proof.
  unfold sha256.BlockSize. intros H. unfold hmac.blockKey, sha256.BlockSize.
  rewrite len_app. change (len [0]) with 1.
  destruct (Z.ltb_spec 64 (len key + 1)); [lia|].
  destruct (Z.ltb_spec 64 (len key)); [lia|].
  rewrite len_app. change (len [0]) with 1.
  replace (Z.to_nat (64 - len key)) with (S (Z.to_nat (64 - (len key + 1))))
    by lia.
  cbn [repeat]. rewrite <- app_assoc. reflexivity.
Qed.

Lemma hmac_Sum_blockKey k1 k2 msg :
  hmac.blockKey k1 = hmac.blockKey k2 -> hmac.Sum k1 msg = hmac.Sum k2 msg.
Proof. intros H. unfold hmac.Sum. rewrite H. reflexivity. Qed.

Lemma Z_iter_ext {A} (f g : A -> A) n x :
  (forall y, f y = g y) -> Z.iter n f x = Z.iter n g x.
Proof.
  intros H. destruct n; cbn [Z.iter]; try reflexivity.
  rewrite !Pos2Nat.inj_iter.
  induction (Pos.to_nat p) as [|k IH]; cbn [nat_rect]; [reflexivity|].
  rewrite IH. apply H.
Qed.

(** The derived block depends on the password through the HMAC key block
    only. *)
Lemma F_blockKey p1 p2 salt iter i :
  hmac.blockKey p1 = hmac.blockKey p2 ->
  pbkdf2.F p1 salt iter i = pbkdf2.F p2 salt iter i.
Proof.
  intros H. unfold pbkdf2.F.
  rewrite (@hmac_Sum_blockKey p1 p2 _ H).
  f_equal. apply Z_iter_ext. intros tu. unfold pbkdf2.step.
  rewrite (@hmac_Sum_blockKey p1 p2 _ H). reflexivity.
Qed.

(** X14.  A password longer than 64 bytes and its SHA-256 digest (taken as
    a password) derive the same key under every salt: HMAC replaces a key
    longer than its block size by the hash of the key. *)
Theorem long_password_collides (password : string) (salt : bytes) (w : World) :
  64 < len (bytes_of_string password) ->
  DeriveKey (string_of_bytes (sha256.Sum256 (bytes_of_string password))) salt w
  = DeriveKey password salt w.
Proof.
  intros H. rewrite !DeriveKey_returns.
  rewrite (@F_blockKey
             (bytes_of_string
                (string_of_bytes (sha256.Sum256 (bytes_of_string password))))
             (bytes_of_string password) salt Iterations 1); [reflexivity|].
  rewrite bytes_of_string_of_bytes by apply Sum256_bytes.
  apply blockKey_long. exact H.
Qed.

Lemma long_password_collides_witness :
  DeriveKey (string_of_bytes (sha256.Sum256 (bytes_of_string long_password)))
            (make 32) dry
  = DeriveKey long_password (make 32) dry.
Proof.
  apply (@long_password_collides long_password (make 32) dry).
  vm_compute. reflexivity.
Defined.

(** X15.  A password shorter than 64 bytes and the same password followed
    by a zero byte derive the same key under every salt: HMAC pads the key
    with zero bytes up to its block size. *)
Theorem zero_padded_password_collides
  (password : string) (salt : bytes) (w : World) :
  len (bytes_of_string password) < 64 ->
  DeriveKey (password ++ String Ascii.zero EmptyString) salt w
  = DeriveKey password salt w.
Proof.
  intros H. rewrite !DeriveKey_returns.
  rewrite (@F_blockKey
             (bytes_of_string (password ++ String Ascii.zero EmptyString))
             (bytes_of_string password) salt Iterations 1); [reflexivity|].
  rewrite bytes_of_string_app.
  change (bytes_of_string (String zero "")) with [0].
  apply blockKey_zero. exact H.
Qed.

Lemma zero_padded_password_collides_witness :
  DeriveKey ("mypassword" ++ String Ascii.zero EmptyString) (make 32) dry
  = DeriveKey "mypassword" (make 32) dry.
Proof.
  apply (@zero_padded_password_collides "mypassword" (make 32) dry).
  vm_compute. reflexivity.
Defined.

(** *** The example functions *)



End extras.
